(** * mklaren: kernel functions and the LARS-MKL demonstration algorithm

    A shallow embedding of [mklaren/kernel/kernel.py] and
    [examples/lars/lars_mkl.py].  Floating-point numbers are read as real
    numbers (exact arithmetic); where the source divides or takes a square
    root, the non-finite outcomes of IEEE arithmetic (nan, +inf, -inf) are
    kept apart from the finite ones.  Python exceptions are values of
    [result]. *)

From Stdlib Require Import String Reals List ZArith Lia Lra Bool Arith Permutation
  Sorted.
Import ListNotations.
Local Open Scope R_scope.

(* ================================================================= *)
(** * Part I. Definitions *)
(* ================================================================= *)

(** ** Exceptions and the error monad *)

Inductive exn : Type :=
| AttributeError (attr : string)   (* object has no attribute [attr] *)
| ValueError (msg : string)
| IndexError (msg : string)
| AssertionError
| NotModelled (what : string).     (* operand kinds outside this model *)

Inductive result (A : Type) : Type :=
| Ok (a : A)
| Raise (e : exn).
Arguments Ok {A} a.
Arguments Raise {A} e.

Definition bind {A B : Type} (c : result A) (k : A -> result B) : result B :=
  match c with
  | Ok a => k a
  | Raise e => Raise e
  end.

Notation "x <- c ;; k" := (bind c (fun x => k))
  (at level 61, c at next level, right associativity).

(** ** Arrays

    A two-dimensional [numpy.ndarray]: its shape and its rows.  Every
    operation builds its result with [tabulate]. *)

Record ndarray (T : Type) : Type := mk_ndarray {
  shape0 : nat;
  shape1 : nat;
  rows : list (list T)
}.
Arguments mk_ndarray {T} _ _ _.
Arguments shape0 {T} _.
Arguments shape1 {T} _.
Arguments rows {T} _.

Definition tabulate {T : Type} (n m : nat) (f : nat -> nat -> T) : ndarray T :=
  mk_ndarray n m (map (fun i => map (f i) (seq 0 m)) (seq 0 n)).

Definition get {T : Type} (d : T) (A : ndarray T) (i j : nat) : T :=
  nth j (nth i (rows A) []) d.

Definition matrix : Type := ndarray R.
Definition vector : Type := list R.

Notation "A .[ i , j ]" := (get 0 A i j) (at level 1, format "A .[ i ,  j ]").

(** [A] is a well-formed [n] x [m] array. *)
Definition has_shape {T : Type} (A : ndarray T) (n m : nat) : Prop :=
  shape0 A = n /\ shape1 A = m /\
  List.length (rows A) = n /\ Forall (fun r => List.length r = m) (rows A).

(** Finite sums: [sum_n n f = f 0 + ... + f (n-1)]. *)
Fixpoint sum_n (n : nat) (f : nat -> R) : R :=
  match n with
  | O => 0
  | S k => sum_n k f + f k
  end.

Definition transpose (A : matrix) : matrix :=
  tabulate (shape1 A) (shape0 A) (fun i j => A.[j, i]).

(** The matrix product, for operands whose inner dimensions agree. *)
Definition matmul (A B : matrix) : matrix :=
  tabulate (shape0 A) (shape1 B)
    (fun i j => sum_n (shape1 A) (fun k => A.[i, k] * B.[k, j])).

Definition amap (f : R -> R) (A : matrix) : matrix :=
  tabulate (shape0 A) (shape1 A) (fun i j => f A.[i, j]).

Definition scale (a : R) (A : matrix) : matrix := amap (Rmult a) A.

(** ** Python values seen by the kernel functions *)

(** Python's own numbers: no attribute [shape], [dot] or [T]. *)
Inductive pynum : Type :=
| PyInt (n : Z)
| PyFloat (r : R).

Inductive pyval : Type :=
| Num (a : pynum)
| NpFloat (r : R)           (* numpy scalar (float64): shape (), has dot and T *)
| NdArray (A : matrix)      (* dense array *)
| SpMatrix (A : matrix).    (* scipy sparse matrix with these entries *)

Definition num_R (a : pynum) : R :=
  match a with
  | PyInt n => IZR n
  | PyFloat r => r
  end.

(** [isinstance(x, int)] *)
Definition isinstance_int (x : pyval) : bool :=
  match x with
  | Num (PyInt _) => true
  | _ => false
  end.

(** [sp.isspmatrix(x)] *)
Definition isspmatrix (x : pyval) : bool :=
  match x with
  | SpMatrix _ => true
  | _ => false
  end.

(** [hasattr(x, "shape")] *)
Definition hasattr_shape (x : pyval) : bool :=
  match x with
  | Num _ => false
  | _ => true
  end.

(** [a * b] on Python numbers: int * int is an int, otherwise a float. *)
Definition num_mul (a b : pynum) : pynum :=
  match a, b with
  | PyInt m, PyInt n => PyInt (m * n)
  | _, _ => PyFloat (num_R a * num_R b)
  end.

(** [a * y] for a Python number [a]: scalar multiplication of whatever
    [y] is. *)
Definition py_mul (a : pynum) (y : pyval) : pyval :=
  match y with
  | Num b => Num (num_mul a b)
  | NpFloat r => NpFloat (num_R a * r)
  | NdArray B => NdArray (scale (num_R a) B)
  | SpMatrix B => SpMatrix (scale (num_R a) B)
  end.

(** [v + c] for a float [c]. *)
Definition py_add (v : pyval) (c : R) : result pyval :=
  match v with
  | Num a => Ok (Num (PyFloat (num_R a + c)))
  | NpFloat r => Ok (NpFloat (r + c))
  | NdArray A => Ok (NdArray (amap (fun t => t + c) A))
  | SpMatrix _ => Raise (NotModelled "sparse + scalar")
  end.

(** [y.T] *)
Definition getattr_T (y : pyval) : result pyval :=
  match y with
  | Num _ => Raise (AttributeError "T")
  | NpFloat r => Ok (NpFloat r)
  | NdArray B => Ok (NdArray (transpose B))
  | SpMatrix B => Ok (SpMatrix (transpose B))
  end.

Definition shapes_aligned (A B : matrix) : bool := (shape1 A =? shape0 B)%nat.

Definition not_aligned : exn := ValueError "shapes not aligned".

(** [x.dot(z)] *)
Definition dot (x z : pyval) : result pyval :=
  match x, z with
  | Num _, _ => Raise (AttributeError "dot")
  | NpFloat a, Num b => Ok (NpFloat (a * num_R b))
  | NpFloat a, NpFloat b => Ok (NpFloat (a * b))
  | NpFloat a, NdArray B => Ok (NdArray (scale a B))
  | NpFloat _, SpMatrix _ => Raise (NotModelled "float64.dot(sparse)")
  | NdArray A, Num b => Ok (NdArray (scale (num_R b) A))
  | NdArray A, NpFloat b => Ok (NdArray (scale b A))
  | NdArray A, NdArray B =>
      if shapes_aligned A B then Ok (NdArray (matmul A B)) else Raise not_aligned
  | NdArray _, SpMatrix _ => Raise (NotModelled "ndarray.dot(sparse)")
  | SpMatrix A, Num b => Ok (SpMatrix (scale (num_R b) A))
  | SpMatrix A, NpFloat b => Ok (SpMatrix (scale b A))
  | SpMatrix A, NdArray B =>
      if shapes_aligned A B then Ok (NdArray (matmul A B)) else Raise not_aligned
  | SpMatrix A, SpMatrix B =>
      if shapes_aligned A B then Ok (SpMatrix (matmul A B)) else Raise not_aligned
  end.

(** [np.array(v.todense())]: only sparse matrices have [todense]. *)
Definition todense (v : pyval) : result pyval :=
  match v with
  | SpMatrix A => Ok (NdArray A)
  | _ => Raise (AttributeError "todense")
  end.

(** [v ** p] for a natural degree [p], elementwise on arrays. *)
Definition py_pow (v : pyval) (p : nat) : result pyval :=
  match v with
  | Num (PyInt n) => Ok (Num (PyInt (n ^ Z.of_nat p)))
  | Num (PyFloat r) => Ok (Num (PyFloat (r ^ p)))
  | NpFloat r => Ok (NpFloat (r ^ p))
  | NdArray A => Ok (NdArray (amap (fun t => t ^ p) A))
  | SpMatrix _ => Raise (NotModelled "sparse ** p")
  end.

(** [np.tanh(v)], elementwise on arrays; the result is always floating. *)
Definition np_tanh (v : pyval) : result pyval :=
  match v with
  | Num a => Ok (NpFloat (tanh (num_R a)))
  | NpFloat r => Ok (NpFloat (tanh r))
  | NdArray A => Ok (NdArray (amap tanh A))
  | SpMatrix _ => Raise (NotModelled "tanh(sparse)")
  end.

(** The expression [x.dot(y.T)]: the attribute [dot] of [x] is looked up
    before [y.T] is evaluated. *)
Definition dot_T (x y : pyval) : result pyval :=
  match x with
  | Num _ => Raise (AttributeError "dot")
  | _ => yT <- getattr_T y ;; dot x yT
  end.

(** ** kernel.py: linear, polynomial and sigmoid kernels *)

Definition linear_kernel (x y : pyval) : result pyval :=
  if isinstance_int x then
    match x with
    | Num a => Ok (py_mul a y)
    | _ => Raise (NotModelled "unreachable")
    end
  else if isspmatrix x then
    d <- dot_T x y ;;
    todense d
  else
    dot_T x y.

(** Defaults: [p = 2], [b = 0]. *)
Definition poly_kernel (x y : pyval) (p : nat) (b : R) : result pyval :=
  if isspmatrix x then
    d <- dot_T x y ;;
    dd <- todense d ;;
    py_pow dd p
  else if negb (hasattr_shape x) then
    match x with
    | Num a => py_pow (py_mul a y) p
    | _ => Raise (NotModelled "unreachable")
    end
  else
    d <- dot_T x y ;;
    py_pow d p.

(** Defaults: [b = 1], [c = 0]. *)
Definition sigmoid_kernel (x y : pyval) (b c : R) : result pyval :=
  xy <- (if isspmatrix x && isspmatrix y
         then x' <- todense x ;; y' <- todense y ;; Ok (x', y')
         else Ok (x, y)) ;;
  let '(x, y) := xy in
  if negb (hasattr_shape x) then
    match x with
    | Num a =>
        s <- py_add (py_mul (num_mul (PyFloat b) a) y) c ;;
        np_tanh s
    | _ => Raise (NotModelled "unreachable")
    end
  else
    d <- dot_T x y ;;
    s <- py_add (py_mul (PyFloat b) d) c ;;
    np_tanh s.

(** ** IEEE outcomes of division and square root *)

Inductive npfloat : Type :=
| Finite (r : R)
| PosInf
| NegInf
| NaN.

Definition is_finite (x : npfloat) : bool :=
  match x with
  | Finite _ => true
  | _ => false
  end.

(** [np.sqrt(x)] on a finite [x]: nan below zero. *)
Definition np_sqrt (x : R) : npfloat :=
  if Rlt_dec x 0 then NaN else Finite (sqrt x).

(** [x / d] for a finite dividend: a zero divisor gives nan or a signed
    infinity (with a warning only), never an exception. *)
Definition np_divide (x : R) (d : npfloat) : npfloat :=
  match d with
  | Finite r =>
      if Req_EM_T r 0 then
        if Req_EM_T x 0 then NaN
        else if Rlt_dec 0 x then PosInf else NegInf
      else Finite (x / r)
  | PosInf | NegInf => Finite 0
  | NaN => NaN
  end.

(** Broadcasting of one dimension: equal sizes, or one of them is 1. *)
Definition broadcast_dim (a b : nat) : option nat :=
  if (a =? b)%nat then Some a
  else if (a =? 1)%nat then Some b
  else if (b =? 1)%nat then Some a
  else None.

(** The index read from an operand along a dimension of size [dim]. *)
Definition bidx (dim i : nat) : nat := if (dim =? 1)%nat then O else i.

Definition not_broadcast : exn :=
  ValueError "operands could not be broadcast together".

(** Elementwise binary operation on two arrays, with broadcasting. *)
Definition broadcast2 {A B C : Type} (da : A) (db : B) (op : A -> B -> C)
    (X : ndarray A) (Y : ndarray B) : result (ndarray C) :=
  match broadcast_dim (shape0 X) (shape0 Y),
        broadcast_dim (shape1 X) (shape1 Y) with
  | Some n, Some m =>
      Ok (tabulate n m (fun i j =>
            op (get da X (bidx (shape0 X) i) (bidx (shape1 X) j))
               (get db Y (bidx (shape0 Y) i) (bidx (shape1 Y) j))))
  | _, _ => Raise not_broadcast
  end.

(** ** kernel.py: centering and normalization *)



(** [A.dot(B)] on two dense arrays. *)
Definition mdot (A B : matrix) : result matrix :=
  if shapes_aligned A B then Ok (matmul A B) else Raise not_aligned.

Definition msub (A B : matrix) : result matrix := broadcast2 0 0 Rminus A B.



(** [G.mean(axis=0)]: the mean of every column, a row of length
    [shape1 G]. *)
Definition mean_axis0 (G : matrix) : matrix :=
  tabulate 1 (shape1 G)
    (fun _ j => sum_n (shape0 G) (fun i => G.[i, j]) / INR (shape0 G)).

Definition center_kernel_low_rank (G : matrix) : result matrix :=
  msub G (mean_axis0 G).

(** [np.diag(K)]: the main diagonal, of length [min(shape)]. *)
Definition np_diag (K : matrix) : vector :=
  map (fun i => K.[i, i]) (seq 0 (Nat.min (shape0 K) (shape1 K))).

(** [v.reshape((n, 1))] *)
Definition reshape_col (v : vector) (n : nat) : result matrix :=
  if (List.length v =? n)%nat
  then Ok (tabulate n 1 (fun i _ => nth i v 0))
  else Raise (ValueError "cannot reshape array").

Definition kernel_row_normalize (K : matrix) : result (ndarray npfloat) :=
  d <- reshape_col (np_diag K) (shape0 K) ;;
  ddT <- mdot d (transpose d) ;;
  let Kn := tabulate (shape0 ddT) (shape1 ddT) (fun i j => np_sqrt ddT.[i, j]) in
  broadcast2 0 NaN np_divide K Kn.

(** ** Vectors, slices and norms used by lars_mkl.py *)

(** [A.dot(v)] for a one-dimensional [v]. *)
Definition matvec (A : matrix) (v : vector) : result vector :=
  if (shape1 A =? List.length v)%nat
  then Ok (map (fun i => sum_n (shape1 A) (fun k => A.[i, k] * nth k v 0))
               (seq 0 (shape0 A)))
  else Raise not_aligned.

(** [u - v] and [u + v] on vectors of one length. *)
Definition vsub (u v : vector) : vector :=
  map (fun i => nth i u 0 - nth i v 0) (seq 0 (List.length u)).

Definition vadd (u v : vector) : vector :=
  map (fun i => nth i u 0 + nth i v 0) (seq 0 (List.length u)).

(** [y.ravel()]: the entries in row-major order. *)
Definition ravel (A : matrix) : vector :=
  concat (map (fun i => map (fun j => A.[i, j]) (seq 0 (shape1 A)))
              (seq 0 (shape0 A))).

(** [norm(v)] of a vector and [norm(A)] of a matrix (Frobenius). *)
Definition norm_vec (v : vector) : R :=
  sqrt (fold_right (fun x acc => x * x + acc) 0 v).

Definition norm_mat (A : matrix) : R := norm_vec (ravel A).

(** [P == k] and [np.sum(P == k)] for an array [P] of kernel labels. *)
Definition mask_eq (P : list nat) (k : nat) : list bool :=
  map (Nat.eqb k) P.

Definition count_eq (P : list nat) (k : nat) : nat :=
  List.length (filter (fun b : bool => b) (mask_eq P k)).

(** [np.where(mask)[0]]: the positions that hold [True]. *)
Fixpoint where_from (i : nat) (mask : list bool) : list nat :=
  match mask with
  | [] => []
  | b :: rest => if b then i :: where_from (S i) rest else where_from (S i) rest
  end.

Definition np_where (mask : list bool) : list nat := where_from 0 mask.

(** [np.argmax(mask)] on booleans: the first [True], or 0 when there is
    none. *)
Definition argmax_bool (mask : list bool) : nat := hd O (np_where mask).

(** [A[:, idx]] for a list of column indices. *)
Definition index_cols (idx : list nat) (A : matrix) : result matrix :=
  if forallb (fun c => c <? shape1 A)%nat idx
  then Ok (tabulate (shape0 A) (List.length idx) (fun i j => A.[i, nth j idx O]))
  else Raise (IndexError "index out of bounds").

(** [A[:, mask]] for a boolean mask over the columns. *)
Definition mask_cols (mask : list bool) (A : matrix) : result matrix :=
  if (List.length mask =? shape1 A)%nat
  then index_cols (np_where mask) A
  else Raise (IndexError "boolean index did not match").

(** [A[:, a:b]] *)
Definition slice_cols (a b : nat) (A : matrix) : matrix :=
  let b' := Nat.min b (shape1 A) in
  tabulate (shape0 A) (b' - a) (fun i j => A.[i, a + j]).

(** [A[:, :t]] *)
Definition take_cols (t : nat) (A : matrix) : matrix := slice_cols 0 t A.

(** [l[i] = x] on a list, in range. *)
Fixpoint set_nth {T : Type} (i : nat) (x : T) (l : list T) : list T :=
  match l, i with
  | [], _ => []
  | _ :: rest, O => x :: rest
  | h :: rest, S i' => h :: set_nth i' x rest
  end.

(** [sorted(l, key=key)]: a stable insertion sort. *)
Fixpoint insert_by (key : nat -> nat) (x : nat) (l : list nat) : list nat :=
  match l with
  | [] => [x]
  | h :: rest => if (key x <? key h)%nat then x :: l else h :: insert_by key x rest
  end.

Definition sorted_by (key : nat -> nat) (l : list nat) : list nat :=
  fold_left (fun acc x => insert_by key x acc) l [].

(** ** lars_mkl.py: [mkl_lars] *)

(** [sorted(set(P), key=lambda p: np.argmax(P == p))]: the distinct
    labels by first occurrence. *)
Definition korder_of (P : list nat) : list nat :=
  sorted_by (fun p => argmax_bool (mask_eq P p)) (nodup Nat.eq_dec P).

Record lars_state : Type := mk_lars_state {
  path : list vector;        (* rows of the path *)
  t : nat;                   (* cumulative column count *)
  r : vector;                (* residual *)
  mu : option vector         (* fitted mean; [None] is the initial scalar 0 *)
}.

(** [mu + v], where the initial [mu] is the scalar 0. *)
Definition mu_add (m : option vector) (v : vector) : vector :=
  match m with
  | None => map (Rplus 0) v
  | Some u => vadd u v
  end.

(** [norm(Q[:, P == k].T.dot(r))**2 * f(p)] *)
Definition group_cost (Q : matrix) (P : list nat) (f : nat -> R)
    (k : nat) (r : vector) : result R :=
  Qk <- mask_cols (mask_eq P k) Q ;;
  v <- matvec (transpose Qk) r ;;
  Ok (norm_vec v ^ 2 * f (count_eq P k)).

(** [1 - np.sqrt(c2 / c1)] *)
Definition step_fraction (c1 c2 : R) : npfloat :=
  match np_divide c2 (Finite c1) with
  | Finite q =>
      match np_sqrt q with
      | Finite s => Finite (1 - s)
      | _ => NaN
      end
  | PosInf => NegInf
  | NegInf | NaN => NaN
  end.

(** One pass of the loop over [pairs], for the [i]-th pair [(k1, k2)].
    A nan step fraction turns [path[i]] and then the residual into nan,
    so that the next assertion (a comparison with nan) fails. *)
Definition lars_iter (Q : matrix) (P : list nat) (f : nat -> R)
    (i k1 k2 : nat) (st : lars_state) : result lars_state :=
  c1 <- group_cost Q P f k1 (r st) ;;
  c2 <- group_cost Q P f k2 (r st) ;;
  if Rle_dec c2 c1 then
    QTr <- matvec (transpose Q) (r st) ;;
    let t' := (t st + count_eq P k2)%nat in
    match step_fraction c1 c2 with
    | Finite alpha =>
        let row := map (Rmult alpha) QTr in
        d <- matvec (take_cols t' Q) row ;;
        Ok (mk_lars_state (set_nth i row (path st)) t'
                          (vsub (r st) d) (Some (mu_add (mu st) d)))
    | NaN =>
        _ <- matvec (take_cols t' Q) QTr ;;
        if (shape0 Q =? 0)%nat
        then Raise (NotModelled "nan path row over an empty sample")
        else Raise AssertionError
    | _ => Raise (NotModelled "infinite step fraction")
    end
  else Raise AssertionError.

Fixpoint lars_loop (Q : matrix) (P : list nat) (f : nat -> R)
    (i : nat) (pairs : list (nat * nat)) (st : lars_state)
    : result lars_state :=
  match pairs with
  | [] => Ok st
  | (k1, k2) :: rest =>
      st' <- lars_iter Q P f i k1 k2 st ;;
      lars_loop Q P f (S i) rest st'
  end.

(** The jump to the least-squares solution and the final assertion. *)
Definition lars_finish (Q : matrix) (st : lars_state)
    : result (lars_state) :=
  QTr <- matvec (transpose Q) (r st) ;;
  let path' := set_nth (List.length (path st) - 1) QTr (path st) in
  d <- matvec Q QTr ;;
  let r' := vsub (r st) d in
  let mu' := mu_add (mu st) d in
  QTr' <- matvec (transpose Q) r' ;;
  if Rlt_dec (norm_vec QTr') (1 / 1000)
  then Ok (mk_lars_state path' (t st) r' (Some mu'))
  else Raise AssertionError.

(** [mkl_lars(Q, P, y, f)]; the result carries the final residual next
    to the returned [(path, mu)]. *)
Definition mkl_lars (Q : matrix) (P : list nat) (y : matrix) (f : nat -> R)
    : result lars_state :=
  let korder := korder_of P in
  let pairs := combine korder (tl korder) in
  let path0 := repeat (repeat 0 (shape1 Q)) (List.length korder) in
  match korder with
  | [] => Raise (IndexError "list index out of range")
  | k0 :: _ =>
      let t0 := count_eq P k0 in
      st <- lars_loop Q P f 0 pairs (mk_lars_state path0 t0 (ravel y) None) ;;
      lars_finish Q st
  end.

(** ** Further array operations used by [mkl_qr] *)

Definition np_zeros (n m : nat) : matrix := tabulate n m (fun _ _ => 0).

(** [v.dot(A)] for a one-dimensional [v], and the inner product
    [u.dot(v)]. *)
Definition vecmat (v : vector) (A : matrix) : result vector :=
  if (List.length v =? shape0 A)%nat
  then Ok (map (fun j => sum_n (shape0 A) (fun k => nth k v 0 * A.[k, j]))
               (seq 0 (shape1 A)))
  else Raise not_aligned.

Definition vdot (u v : vector) : result R :=
  if (List.length u =? List.length v)%nat
  then Ok (sum_n (List.length u) (fun k => nth k u 0 * nth k v 0))
  else Raise not_aligned.

(** [A[i, :]] *)
Definition row_of (A : matrix) (i : nat) : vector :=
  map (fun j => A.[i, j]) (seq 0 (shape1 A)).

(** [A[:a, :b]] *)
Definition take_block (a b : nat) (A : matrix) : matrix :=
  tabulate (Nat.min a (shape0 A)) (Nat.min b (shape1 A)) (fun i j => A.[i, j]).

(** [A[:, c:] = 0] *)
Definition zero_cols_from (c : nat) (A : matrix) : matrix :=
  tabulate (shape0 A) (shape1 A) (fun i j => if (j <? c)%nat then A.[i, j] else 0).

(** [(A ** 2).sum(axis=1).ravel()] *)
Definition row_sums_sq (A : matrix) : vector :=
  map (fun i => sum_n (shape1 A) (fun j => A.[i, j] ^ 2)) (seq 0 (shape0 A)).

(** Elementwise operation on one-dimensional arrays, with broadcasting. *)
Definition vbroadcast2 (op : R -> R -> R) (u v : vector) : result vector :=
  match broadcast_dim (List.length u) (List.length v) with
  | Some n =>
      Ok (map (fun i => op (nth (bidx (List.length u) i) u 0)
                           (nth (bidx (List.length v) i) v 0)) (seq 0 n))
  | None => Raise not_broadcast
  end.

Fixpoint map_result {A B : Type} (g : A -> result B) (l : list A)
    : result (list B) :=
  match l with
  | [] => Ok []
  | a :: rest => b <- g a ;; bs <- map_result g rest ;; Ok (b :: bs)
  end.

(** [np.round(x, 5)]: scale, round half to even, scale back. *)
Definition round_half_even (x : R) : Z :=
  let fl := (up x - 1)%Z in
  let frac := x - IZR fl in
  if Rlt_dec frac (1 / 2) then fl
  else if Rlt_dec (1 / 2) frac then (fl + 1)%Z
  else if Z.even fl then fl else (fl + 1)%Z.

Definition np_round5 (x : R) : R :=
  IZR (round_half_even (x * 10 ^ 5)) / 10 ^ 5.

(** Arithmetic of a possibly infinite value with a finite scalar. *)
Definition npf_mul (x : npfloat) (a : R) : npfloat :=
  match x with
  | Finite v => Finite (v * a)
  | PosInf => if Rlt_dec 0 a then PosInf else if Rlt_dec a 0 then NegInf else NaN
  | NegInf => if Rlt_dec 0 a then NegInf else if Rlt_dec a 0 then PosInf else NaN
  | NaN => NaN
  end.

Definition npf_add (x : npfloat) (a : R) : npfloat :=
  match x with
  | Finite v => Finite (v + a)
  | other => other
  end.

(** [a < b] on values that are not nan. *)
Definition npf_lt (a b : npfloat) : bool :=
  match a, b with
  | Finite u, Finite v => if Rlt_dec u v then true else false
  | NegInf, Finite _ | NegInf, PosInf | Finite _, PosInf => true
  | _, _ => false
  end.

Definition is_nan (x : npfloat) : bool :=
  match x with
  | NaN => true
  | _ => false
  end.

(** [np.argmax] of a flat array: the first maximum; a nan counts as the
    maximum. *)
Fixpoint argmax_from (best_i : nat) (best : npfloat) (i : nat)
    (l : list npfloat) : nat :=
  match l with
  | [] => best_i
  | x :: rest =>
      if is_nan best then best_i
      else if is_nan x || npf_lt best x
      then argmax_from i x (S i) rest
      else argmax_from best_i best (S i) rest
  end.

Definition np_argmax (l : list npfloat) : result nat :=
  match l with
  | [] => Raise (ValueError "attempt to get an argmax of an empty sequence")
  | x :: rest => Ok (argmax_from 0 x 1 rest)
  end.

(** [np.argsort(-cost)]: the indices by descending cost (ties keep their
    order). *)
Fixpoint insert_desc (cost : vector) (x : nat) (l : list nat) : list nat :=
  match l with
  | [] => [x]
  | h :: rest =>
      if Rlt_dec (nth h cost 0) (nth x cost 0)
      then x :: l
      else h :: insert_desc cost x rest
  end.

Definition argsort_desc (cost : vector) : list nat :=
  fold_left (fun acc x => insert_desc cost x acc) (seq 0 (List.length cost)) [].

(** [row[idx] = -np.inf] for every index of [idx]. *)
Definition set_neg_inf (idx : list nat) (row : list npfloat)
    : result (list npfloat) :=
  if forallb (fun a => a <? List.length row)%nat idx
  then Ok (fold_left (fun acc a => set_nth a NegInf acc) idx row)
  else Raise (IndexError "index out of bounds").

(** [gain[j, :] = row]: the row has the width of [gain], or one entry
    that is broadcast. *)
Definition assign_row (n : nat) (row : list npfloat) : result (list npfloat) :=
  if (List.length row =? n)%nat then Ok row
  else if (List.length row =? 1)%nat then Ok (repeat (hd NaN row) n)
  else Raise not_broadcast.

(** ** lars_mkl.py: [zy2_app] *)

(** [v.T.dot(A).dot(v)] for a one-dimensional [v]. *)
Definition quad_form (v : vector) (A : matrix) : result R :=
  u <- vecmat v A ;;
  vdot u v.

Section SafeDivide.

(** [mklaren.util.la.safe_divide], applied elementwise; it is not part
    of the sources at hand. *)
Variable div : R -> R -> R.

Definition zy2_app (G Q y QTY : matrix) : result (list npfloat) :=
  let n := shape0 G in
  if (shape1 G =? 0)%nat then Ok (repeat NegInf n)
  else
    GTY <- mdot (transpose G) y ;;
    GTQ <- mdot (transpose G) Q ;;
    YY <- mdot GTY (transpose GTY) ;;
    QY <- mdot QTY (transpose GTY) ;;
    QQY <- mdot GTQ QY ;;
    A1 <- msub YY QQY ;;
    C <- map_result (fun i => quad_form (row_of G i) A1) (seq 0 n) ;;
    GG <- mdot (transpose G) G ;;
    QQ <- mdot GTQ (transpose GTQ) ;;
    A2 <- msub GG QQ ;;
    B <- map_result (fun i => quad_form (row_of G i) A2) (seq 0 n) ;;
    let B := map np_round5 B in
    Ok (map (fun cb => Finite (div (fst cb) (snd cb))) (combine C B)).

End SafeDivide.

(** ** lars_mkl.py: [mkl_qr]

    The function allocates buffers, calls the incremental factorization
    routines and may warn; these effects are recorded in a trace next to
    the result. *)

Inductive event : Type :=
| Alloc (shape : list nat)       (* np.zeros(shape) *)
| CholeskySteps                  (* a call of cholesky_steps *)
| QrSteps                        (* a call of qr_steps *)
| QrReorder                      (* a call of qr_reorder *)
| QrOrient                       (* a call of qr_orient *)
| Warn (step rank : nat).
    (* warn("Iterations ended prematurely at step = %d < %d" % (step, rank)) *)

Definition M (A : Type) : Type := (list event * result A)%type.

Definition ret {A : Type} (a : A) : M A := ([], Ok a).

Definition mbind {A B : Type} (c : M A) (k : A -> M B) : M B :=
  match c with
  | (tr, Ok a) => let (tr', res) := k a in (tr ++ tr', res)
  | (tr, Raise e) => (tr, Raise e)
  end.

Definition emit (e : event) : M unit := ([e], Ok tt).

Definition lift {A : Type} (c : result A) : M A := ([], c).

Notation "x <~ c ;; k" := (mbind c (fun x => k))
  (at level 61, c at next level, right associativity).

Record qr_state : Type := mk_qr_state {
  sQ : matrix;                    (* master Q *)
  sR : matrix;                    (* master R *)
  sP : list nat;                  (* kernel of every committed column *)
  sGs : list matrix;              (* Cholesky factor per kernel *)
  sActs : list (list nat);        (* active pivots per kernel *)
  sInas : list (list nat);        (* inactive pivots per kernel *)
  corr : vector;
  cost : vector;
  ncol : list nat;
  gain : list (list npfloat)
}.

Inductive flow : Type :=
| Continue (st : qr_state)
| Break (st : qr_state).

Definition empty_matrix : matrix := mk_ndarray 0 0 [].

(** A buffer overwritten in place keeps its shape. *)
Definition inplace (A : matrix) (e : nat -> nat -> R) : matrix :=
  tabulate (shape0 A) (shape1 A) e.

(** [x == 0] *)
Definition is_zero (x : npfloat) : bool :=
  match x with
  | Finite v => if Req_EM_T v 0 then true else false
  | _ => false
  end.

(** [assert norm(G[:, :k_num] - (Q.dot(R))[:, k_inx]) < 1e-5] *)
Definition check_factor (G Q R : matrix) (k_num : nat) (k_inx : list nat)
    : result unit :=
  QR <- mdot Q R ;;
  QRk <- index_cols k_inx QR ;;
  D <- msub (take_cols k_num G) QRk ;;
  if Rlt_dec (norm_mat D) (1 / 100000) then Ok tt else Raise AssertionError.

Section MklQr.

(** The routines of [examples.lars.cholesky], [examples.lars.qr] and
    [mklaren.util.la] are not part of the sources at hand.  They
    overwrite their buffers in place: each is taken as the function that
    gives the new entries (and, for [cholesky_steps], the new active and
    inactive pivot lists). *)

(** [cholesky_steps(K, G, act, ina, start, max_steps, order)] *)
Variable cholesky_steps :
  matrix -> matrix -> list nat -> list nat ->
  option nat -> option nat -> option (list nat) ->
  (nat -> nat -> R) * list nat * list nat.

(** [qr_steps(G, Q, R, max_steps, start, qstart)] *)
Variable qr_steps :
  matrix -> matrix -> matrix -> nat -> nat -> nat ->
  (nat -> nat -> R) * (nat -> nat -> R).

(** [qr_reorder(Q, R, rank, order)] *)
Variable qr_reorder :
  matrix -> matrix -> nat -> list nat ->
  (nat -> nat -> R) * (nat -> nat -> R).

(** [qr_orient(Q, R, y)] *)
Variable qr_orient :
  matrix -> matrix -> matrix -> (nat -> nat -> R) * (nat -> nat -> R).

(** [safe_divide] *)
Variable div : R -> R -> R.

Variable Ks : list matrix.
Variable y : matrix.
Variable rank : nat.          (* the rank requested by the caller *)
Variable delta : nat.
Variable f : nat -> R.

Definition num_kernels : nat := List.length Ks.

(** The look-ahead phase: one factor per kernel, seeded with [delta]
    steps. *)
Fixpoint setup_factors (n : nat) (ks : list matrix) : M (list matrix) :=
  match ks with
  | [] => ret []
  | K :: rest =>
      _ <~ emit (Alloc [n; rank + delta]%nat) ;;
      let G := np_zeros n (rank + delta) in
      G' <~ (if (0 <? delta)%nat then
               _ <~ emit CholeskySteps ;;
               let '(e, _, _) :=
                 cholesky_steps K G [] (seq 0 n) None (Some delta) None in
               ret (inplace G e)
             else ret G) ;;
      Gs <~ setup_factors n rest ;;
      ret (G' :: Gs)
  end.

Definition qr_setup : M (nat * qr_state) :=
  let k := num_kernels in
  match Ks with
  | [] => lift (Raise (IndexError "list index out of range"))
  | K0 :: _ =>
      let n := shape0 K0 in
      let w := (rank + k * delta)%nat in
      _ <~ emit (Alloc [n; w]) ;;
      _ <~ emit (Alloc [w; w]) ;;
      _ <~ emit (Alloc [k]) ;;
      _ <~ emit (Alloc [k]) ;;
      _ <~ emit (Alloc [k]) ;;
      _ <~ emit (Alloc [k; n]) ;;
      Gs <~ setup_factors n Ks ;;
      ret (n, mk_qr_state (np_zeros n w) (np_zeros w w) []
                Gs (repeat [] k) (repeat (seq 0 n) k)
                (repeat 0 k) (repeat 0 k) (repeat O k)
                (repeat (repeat (Finite 0) n) k))
  end.

(** The value assigned to [gain[j, :]]. *)
Definition gain_value (step : nat) (st : qr_state) (Qa QTY : matrix)
    (j : nat) : result (list npfloat) :=
  let G := nth j (sGs st) empty_matrix in
  if (0 <? delta)%nat then
    let Ga := slice_cols step (step + delta) G in
    zy2 <- zy2_app div Ga Qa y QTY ;;
    let nc := nth j (ncol st) O in
    Ok (map (fun z => npf_add (npf_mul z (f (nc + 1)))
                              ((f (nc + 1) - f nc) * nth j (corr st) 0)) zy2)
  else
    v <- vbroadcast2 Rminus (np_diag (nth j Ks empty_matrix)) (row_sums_sq G) ;;
    Ok (map Finite v).

(** The loop [for j in range(k)] that fills [gain]. *)
Fixpoint fill_gain (n step : nat) (st : qr_state) (Qa QTY : matrix)
    (js : list nat) (g : list (list npfloat))
    : result (list (list npfloat)) :=
  match js with
  | [] => Ok g
  | j :: rest =>
      v <- gain_value step st Qa QTY j ;;
      row <- assign_row n v ;;
      row' <- set_neg_inf (nth j (sActs st) []) row ;;
      fill_gain n step st Qa QTY rest (set_nth j row' g)
  end.

Definition compute_gains (n step : nat) (st : qr_state)
    : result (list (list npfloat)) :=
  let Qa := take_cols step (sQ st) in
  QTY <- mdot (transpose Qa) y ;;
  fill_gain n step st Qa QTY (seq 0 num_kernels) (gain st).

(** [np.unravel_index(np.argmax(gain), gain.shape)] *)
Definition select_pivot (n : nat) (g : list (list npfloat))
    : result (nat * nat) :=
  idx <- np_argmax (concat g) ;;
  Ok (idx / n, idx mod n)%nat.

Definition gain_at (g : list (list npfloat)) (kern pivot : nat) : npfloat :=
  nth pivot (nth kern g []) NaN.

(** The maximal entry of the gain matrix at [step]. *)
Definition max_gain (n step : nat) (st : qr_state) : result npfloat :=
  g <- compute_gains n step st ;;
  kp <- select_pivot n g ;;
  Ok (gain_at g (fst kp) (snd kp)).

Definition with_gain (st : qr_state) (g : list (list npfloat)) : qr_state :=
  mk_qr_state (sQ st) (sR st) (sP st) (sGs st) (sActs st) (sInas st)
              (corr st) (cost st) (ncol st) g.

(** The part of one pass after the pivot is chosen. *)
Definition commit (n step kern pivot : nat) (st : qr_state) : M qr_state :=
  let G := nth kern (sGs st) empty_matrix in
  let K := nth kern Ks empty_matrix in
  let P' := sP st ++ [kern] in
  let k_inx := np_where (mask_eq P' kern) in
  let k_num := List.length k_inx in
  let k_start := (k_num - 1)%nat in
  let G1 := zero_cols_from k_start G in
  _ <~ emit CholeskySteps ;;
  let '(e1, act', ina') :=
    cholesky_steps K G1 (nth kern (sActs st) []) (nth kern (sInas st) [])
                   (Some k_start) None (Some [pivot]) in
  let G2 := inplace G1 e1 in
  _ <~ emit QrSteps ;;
  let '(eQ, eR) := qr_steps G2 (sQ st) (sR st) 1 k_start step in
  let Q1 := inplace (sQ st) eQ in
  let R1 := inplace (sR st) eR in
  _ <~ lift (check_factor G2 Q1 R1 k_num k_inx) ;;
  let max_steps := Nat.min delta (shape1 G2 - k_num) in
  _ <~ emit CholeskySteps ;;
  let '(e2, _, _) :=
    cholesky_steps K G2 act'
                   (filter (fun i => negb (existsb (Nat.eqb i) act')) (seq 0 n))
                   (Some k_num) (Some max_steps) None in
  let G3 := inplace G2 e2 in
  _ <~ lift (check_factor G3 Q1 R1 k_num k_inx) ;;
  let nc := (nth kern (ncol st) O + 1)%nat in
  Qk <~ lift (index_cols k_inx Q1) ;;
  QkTy <~ lift (mdot (transpose Qk) y) ;;
  let cr := norm_mat QkTy ^ 2 in
  ret (mk_qr_state Q1 R1 P'
         (set_nth kern G3 (sGs st))
         (set_nth kern act' (sActs st))
         (set_nth kern ina' (sInas st))
         (set_nth kern cr (corr st))
         (set_nth kern (cr * f nc) (cost st))
         (set_nth kern nc (ncol st))
         (gain st)).

(** One pass of [for step in range(rank)]. *)
Definition qr_iter (n step : nat) (st : qr_state) : M flow :=
  g <~ lift (compute_gains n step st) ;;
  let st := with_gain st g in
  kp <~ lift (select_pivot n g) ;;
  let '(kern, pivot) := kp in
  if is_zero (gain_at g kern pivot) then
    _ <~ emit (Warn step rank) ;;
    ret (Break st)
  else if existsb (Nat.eqb pivot) (nth kern (sActs st) []) then
    lift (Raise AssertionError)
  else
    st' <~ commit n step kern pivot st ;;
    ret (Continue st').

(** The loop; the second component is the step of the [break], if any. *)
Fixpoint qr_loop (n : nat) (steps : list nat) (st : qr_state)
    : M (qr_state * option nat) :=
  match steps with
  | [] => ret (st, None)
  | step :: rest =>
      fl <~ qr_iter n step st ;;
      match fl with
      | Break st' => ret (st', Some step)
      | Continue st' => qr_loop n rest st'
      end
  end.

(** [np.array(P)[porder]] *)
Definition take_indices (P : list nat) (idx : list nat) : result (list nat) :=
  if forallb (fun i => i <? List.length P)%nat idx
  then Ok (map (fun i => nth i P O) idx)
  else Raise (IndexError "index out of bounds").

(** Everything after the loop, for the final value [rank'] of [rank]. *)
Definition qr_finalize (rank' : nat) (st : qr_state)
    : M (matrix * matrix * list nat) :=
  let korder := argsort_desc (cost st) in
  let porder := flat_map (fun j => np_where (mask_eq (sP st) j)) korder in
  _ <~ emit QrReorder ;;
  let '(eQ, eR) := qr_reorder (sQ st) (sR st) rank' porder in
  let Q1 := inplace (sQ st) eQ in
  let R1 := inplace (sR st) eR in
  _ <~ emit QrOrient ;;
  let '(eQ', eR') := qr_orient Q1 R1 y in
  let Q2 := inplace Q1 eQ' in
  let R2 := inplace R1 eR' in
  if (rank' =? List.length porder)%nat then
    P' <~ lift (take_indices (sP st) porder) ;;
    ret (take_cols rank' Q2, take_block rank' rank' R2, P')
  else lift (Raise AssertionError).

Definition unstable_delta : exn :=
  ValueError "Unstable selection of delta. (delta = 1)".

(** The loop over [steps] followed by the finalization; a [break]
    assigns the current step to [rank]. *)
Definition qr_from (n : nat) (steps : list nat) (st : qr_state)
    : M (matrix * matrix * list nat) :=
  res <~ qr_loop n steps st ;;
  let '(st', broke) := res in
  qr_finalize (match broke with Some step => step | None => rank end) st'.

Definition mkl_qr : M (matrix * matrix * list nat) :=
  if (delta =? 1)%nat then lift (Raise unstable_delta)
  else
    ns <~ qr_setup ;;
    let '(n, st0) := ns in
    qr_from n (seq 0 rank) st0.

(** The run of [mkl_qr] arrives at the head of the loop for [step], in
    the state [st], having left the trace [tr]. *)
Inductive reaches (n : nat) : nat -> qr_state -> list event -> Prop :=
| reaches_setup (st0 : qr_state) (tr : list event) :
    qr_setup = (tr, Ok (n, st0)) -> reaches n 0 st0 tr
| reaches_step (step : nat) (st st' : qr_state) (tr tr' : list event) :
    reaches n step st tr ->
    qr_iter n step st = (tr', Ok (Continue st')) ->
    reaches n (S step) st' (tr ++ tr').

(** What holds of the state at the head of the loop for [step]: the
    buffers have their allocated shapes, [P] has one kernel index per
    committed column, and [gain] is a [k] x [n] array. *)
Definition qr_inv (n step : nat) (st : qr_state) : Prop :=
  shape0 (sQ st) = n /\ shape1 (sQ st) = (rank + num_kernels * delta)%nat /\
  shape0 (sR st) = (rank + num_kernels * delta)%nat /\
  shape1 (sR st) = (rank + num_kernels * delta)%nat /\
  List.length (sP st) = step /\
  Forall (fun j => j < num_kernels)%nat (sP st) /\
  List.length (cost st) = num_kernels /\
  List.length (gain st) = num_kernels /\
  Forall (fun row => List.length row = n) (gain st).

End MklQr.

(** ** Vocabulary of the properties *)

(** The Kronecker delta. *)
Definition kron (i j : nat) : R := if (i =? j)%nat then 1 else 0.

(** [mm p a b] is the product of [a] and [b] with inner dimension [p]. *)
Definition mm (p : nat) (a b : nat -> nat -> R) (i j : nat) : R :=
  sum_n p (fun k => a i k * b k j).

(** Entries of the centering matrix [I - 11^T/n]. *)
Definition cen (n : nat) (i j : nat) : R := kron i j - 1 / INR n.


(** The quadratic form v^T K v over the first [n] indices. *)
Definition quad (K : matrix) (n : nat) (v : nat -> R) : R :=
  sum_n n (fun p => sum_n n (fun q => v p * K.[p, q] * v q)).

(** [K] is a symmetric positive semidefinite [n] x [n] matrix. *)
Definition psd (K : matrix) (n : nat) : Prop :=
  shape0 K = n /\ shape1 K = n /\
  (forall i j, (i < n)%nat -> (j < n)%nat -> K.[i, j] = K.[j, i]) /\
  (forall v : nat -> R, 0 <= quad K n v).

(** [M] is the cosine matrix of [K]: the entries
    K[i,j] / sqrt(K[i,i] K[j,j]), all in [-1, 1], with unit diagonal. *)
Definition cosine_matrix (K : matrix) (n : nat) (M : ndarray npfloat) : Prop :=
  forall i j, (i < n)%nat -> (j < n)%nat ->
    get NaN M i j = Finite (K.[i, j] / sqrt (K.[i, i] * K.[j, j])) /\
    -1 <= K.[i, j] / sqrt (K.[i, i] * K.[j, j]) <= 1 /\
    get NaN M i i = Finite 1.

(** [kernel_row_normalize] returns the cosine matrix of [K]. *)
Definition normalizes (K : matrix) (n : nat) : Prop :=
  exists M, kernel_row_normalize K = Ok M /\ cosine_matrix K n M.

(** The number of positions of [P] that hold [j]. *)
Definition occurrences (P : list nat) (j : nat) : nat :=
  List.length (np_where (mask_eq P j)).

(** The columns of [Q] are orthonormal: Q^T Q = I. *)
Definition orthonormal_cols (Q : matrix) : Prop :=
  forall a b, (a < shape1 Q)%nat -> (b < shape1 Q)%nat ->
    sum_n (shape0 Q) (fun i => Q.[i, a] * Q.[i, b]) = kron a b.


(** ** Sample inputs *)

Definition eye2 : matrix := mk_ndarray 2 2 [[1; 0]; [0; 1]].
Definition col_2_1 : matrix := mk_ndarray 2 1 [[2]; [1]].
Definition eye3 : matrix := mk_ndarray 3 3 [[1; 0; 0]; [0; 1; 0]; [0; 0; 1]].
Definition ones_3x1 : matrix := mk_ndarray 3 1 [[1]; [1]; [1]].
Definition zero_1x1 : matrix := mk_ndarray 1 1 [[0]].

(** Stand-ins for the factorization routines that write zeros and leave
    the pivot lists alone. *)
Definition chol_zero (K G : matrix) (act ina : list nat)
    (start max_steps : option nat) (order : option (list nat))
    : (nat -> nat -> R) * list nat * list nat :=
  (fun _ _ => 0, act, ina).

Definition qr_zero : (nat -> nat -> R) * (nat -> nat -> R) :=
  (fun _ _ => 0, fun _ _ => 0).

(** ** kernel.py: exponential, periodic and random kernels *)

(** The outcome of a call that divides Python floats: next to the
    results above, Python's own [ZeroDivisionError]. *)
Inductive outcome (A : Type) : Type :=
| Returned (res : result A)
| ZeroDivisionError.
Arguments Returned {A} res.
Arguments ZeroDivisionError {A}.

(** A kernel value that may be a nan or an infinity, or an array of
    such values. *)
Inductive fval : Type :=
| FScalar (v : npfloat)
| FArray (A : ndarray npfloat).

(** The densification shared by the kernels: [x] and [y] are replaced by
    dense arrays when both are sparse. *)
Definition densify_both (x y : pyval) : result (pyval * pyval) :=
  if isspmatrix x && isspmatrix y
  then x' <- todense x ;; y' <- todense y ;; Ok (x', y')
  else Ok (x, y).

(** The double loop [for i, xi in enumerate(x): for j, yj in enumerate(y)]
    that fills [K = np.zeros((x.shape[0], y.shape[0]))]. *)
Definition pairwise {T : Type} (g : vector -> vector -> result T)
    (X Y : matrix) : result (ndarray T) :=
  rws <- map_result
           (fun i => map_result (fun j => g (row_of X i) (row_of Y j))
                                (seq 0 (shape0 Y)))
           (seq 0 (shape0 X)) ;;
  Ok (mk_ndarray (shape0 X) (shape0 Y) rws).

(** [np.linalg.norm(xi - yj, ord=2)] on two rows. *)
Definition row_distance (xi yj : vector) : result R :=
  d <- vbroadcast2 Rminus xi yj ;;
  Ok (norm_vec d).

(** The body of [exponential_kernel] once [gamma] is known.  On a
    Python number [x] the source applies [np.linalg.norm] with [ord=2]
    to a scalar, which is left out here; one-dimensional arrays are not
    among the values. *)
Definition exponential_body (x y : pyval) (gamma : R) : result pyval :=
  xy <- densify_both x y ;;
  let '(x, y) := xy in
  match x with
  | Num _ => Raise (NotModelled "norm of a scalar with ord=2")
  | NpFloat a =>
      match y with
      | Num b => Ok (NpFloat (exp (- gamma * (a - num_R b) ^ 2)))
      | NpFloat b => Ok (NpFloat (exp (- gamma * (a - b) ^ 2)))
      | NdArray Y => Ok (NdArray (amap (fun t => exp (- gamma * (a - t) ^ 2)) Y))
      | SpMatrix _ => Raise (NotModelled "float64 - sparse")
      end
  | NdArray X =>
      match y with
      | Num _ => Raise (AttributeError "shape")
      | NpFloat _ => Raise (IndexError "tuple index out of range")
      | NdArray Y =>
          K <- pairwise (fun xi yj =>
                 d <- row_distance xi yj ;;
                 Ok (exp (- gamma * d ^ 2))) X Y ;;
          Ok (NdArray K)
      | SpMatrix _ => Raise (NotModelled "rows of a sparse matrix")
      end
  | SpMatrix _ => Raise (NotModelled "sparse with a non-sparse operand")
  end.

(** Defaults: [sigma = 2.0], [gamma = None]; [rbf_kernel] is another name
    of this function. *)
Definition exponential_kernel (x y : pyval) (sigma : R) (gamma : option R)
    : outcome pyval :=
  match gamma with
  | Some g => Returned (exponential_body x y g)
  | None =>
      if Req_EM_T (2 * sigma ^ 2) 0 then ZeroDivisionError
      else Returned (exponential_body x y (1 / (2 * sigma ^ 2)))
  end.

Definition rbf_kernel := exponential_kernel.

(** [sigma**2 * np.exp(- 2 * np.sin(np.pi * d / p)**2 / l ** 2)] for a
    distance [d]: the divisions by [p] and by [l ** 2] are numpy
    divisions, a zero divisor gives nan or an infinity. *)
Definition periodic_value (sigma p l d : R) : npfloat :=
  if Req_EM_T p 0 then NaN
  else
    match np_divide (- 2 * sin (PI * d / p) ^ 2) (Finite (l ^ 2)) with
    | Finite v => Finite (sigma ^ 2 * exp v)
    | NegInf => Finite (sigma ^ 2 * 0)
    | PosInf => if Req_EM_T sigma 0 then NaN else PosInf
    | NaN => NaN
    end.

(** The scalar branches of [periodic_kernel], for a number [a]. *)
Definition periodic_scalar (a : R) (y : pyval) (sigma p l : R) : result fval :=
  match y with
  | Num b => Ok (FScalar (periodic_value sigma p l (Rabs (a - num_R b))))
  | NpFloat b => Ok (FScalar (periodic_value sigma p l (Rabs (a - b))))
  | NdArray Y =>
      Ok (FArray (tabulate (shape0 Y) (shape1 Y)
                    (fun i j => periodic_value sigma p l (Rabs (a - Y.[i, j])))))
  | SpMatrix _ => Raise (NotModelled "number - sparse")
  end.

(** Defaults: [sigma = 1], [p = 1], [l = 1]. *)
Definition periodic_kernel (x y : pyval) (sigma p l : R) : result fval :=
  xy <- densify_both x y ;;
  let '(x, y) := xy in
  match x with
  | Num a => periodic_scalar (num_R a) y sigma p l
  | NpFloat a => periodic_scalar a y sigma p l
  | NdArray X =>
      match y with
      | Num _ => Raise (AttributeError "shape")
      | NpFloat _ => Raise (IndexError "tuple index out of range")
      | NdArray Y =>
          K <- pairwise (fun xi yj =>
                 d <- row_distance xi yj ;;
                 Ok (periodic_value sigma p l d)) X Y ;;
          Ok (FArray K)
      | SpMatrix _ => Raise (NotModelled "rows of a sparse matrix")
      end
  | SpMatrix _ => Raise (NotModelled "sparse with a non-sparse operand")
  end.

(** [random_kernel(n)]: [G = np.random.rand(n, n)] is the array of the
    drawn numbers [draw i j]. *)
Definition random_kernel (draw : nat -> nat -> R) (n : nat) : result matrix :=
  let G := tabulate n n draw in
  mdot (transpose G) G.

(** ** The effects of a run of [mkl_qr] *)

(** The allocations and the seeding calls of the set-up, for [k] kernels
    on [n] samples. *)
Definition setup_events (n k rank delta : nat) : list event :=
  [Alloc [n; rank + k * delta]; Alloc [rank + k * delta; rank + k * delta];
   Alloc [k]; Alloc [k]; Alloc [k]; Alloc [k; n]]%nat
  ++ concat (repeat (Alloc [n; rank + delta]%nat
                     :: (if (0 <? delta)%nat then [CholeskySteps] else []))
                    k).



(** [Q.dot(Q.T.dot(v))]: the projection of [v] on the columns of [Q]. *)
Definition projection (Q : matrix) (v : vector) : vector :=
  map (fun i => sum_n (shape1 Q) (fun b =>
         Q.[i, b] * sum_n (shape0 Q) (fun j => Q.[j, b] * nth j v 0)))
      (seq 0 (shape0 Q)).

(** The difference of row [i] of [X] and row [j] of [Y]. *)
Definition row_diff (X Y : matrix) (i j : nat) : vector :=
  map (fun k => X.[i, k] - Y.[j, k]) (seq 0 (shape1 X)).

(** The value of [gamma] used by the call, when there is one. *)
Definition gamma_of (sigma : R) (gamma : option R) : R :=
  match gamma with
  | Some g => g
  | None => 1 / (2 * sigma ^ 2)
  end.

(* ================================================================= *)
(** * Part II. Properties *)
(* ================================================================= *)

(** ** Arrays built by [tabulate] *)

Lemma nth_map_seq {T : Type} (d : T) (g : nat -> T) (n i : nat) :
  (i < n)%nat -> nth i (map g (seq 0 n)) d = g i.
Proof.
  intros Hi.
  rewrite (nth_indep _ d (g O)) by (rewrite length_map, length_seq; exact Hi).
  rewrite map_nth, seq_nth by exact Hi. reflexivity.
Qed.

Lemma get_tabulate {T : Type} (d : T) (n m : nat) (g : nat -> nat -> T) (i j : nat) :
  (i < n)%nat -> (j < m)%nat -> get d (tabulate n m g) i j = g i j.
Proof.
  intros Hi Hj. unfold get, tabulate. simpl.
  rewrite (nth_map_seq [] (fun i => map (g i) (seq 0 m))) by exact Hi.
  apply nth_map_seq. exact Hj.
Qed.

Lemma tabulate_ext {T : Type} (n m : nat) (g h : nat -> nat -> T) :
  (forall i j, (i < n)%nat -> (j < m)%nat -> g i j = h i j) ->
  tabulate n m g = tabulate n m h.
Proof.
  intros E. unfold tabulate. f_equal.
  apply map_ext_in. intros i Hi. apply in_seq in Hi.
  apply map_ext_in. intros j Hj. apply in_seq in Hj.
  apply E; lia.
Qed.

Lemma bidx_in_range (dim i : nat) : (i < dim)%nat -> bidx dim i = i.
Proof.
  intros Hi. unfold bidx. destruct (Nat.eqb_spec dim 1); [lia | reflexivity].
Qed.

Lemma broadcast_dim_same (n : nat) : broadcast_dim n n = Some n.
Proof. unfold broadcast_dim. rewrite Nat.eqb_refl. reflexivity. Qed.

Lemma broadcast_dim_one (n : nat) : broadcast_dim n 1 = Some n.
Proof.
  unfold broadcast_dim.
  destruct (Nat.eqb_spec n 1) as [-> | _]; reflexivity.
Qed.

(** ** The scalar, polynomial and sigmoid kernels *)

Lemma tanh_at_0 : tanh 0 = 0.
Proof. unfold tanh. rewrite sinh_0. unfold Rdiv. apply Rmult_0_l. Qed.

Lemma tanh_at_1_nonzero : tanh 1 <> 0.
Proof.
  unfold tanh, Rdiv. intros H.
  apply Rmult_integral in H. destruct H as [H | H].
  - unfold sinh in H.
    assert (L : exp (Ropp 1) < exp 1) by (apply exp_increasing; lra).
    lra.
  - assert (P : 0 < cosh 1).
    { unfold cosh. pose proof (exp_pos 1). pose proof (exp_pos (Ropp 1)). lra. }
    apply Rinv_0_lt_compat in P. lra.
Qed.

(** What [sigmoid_kernel] computes on Python numbers: [b] scales the
    product and [c] is added. *)
Lemma sigmoid_kernel_scalars (x y : pynum) (b c : R) :
  sigmoid_kernel (Num x) (Num y) b c
  = Ok (NpFloat (tanh (b * num_R x * num_R y + c))).
Proof. destruct x, y; reflexivity. Qed.

(** The dense branch and the densified sparse branch: again [b] scales
    and [c] is added. *)
Lemma sigmoid_kernel_dense (X Y : matrix) (b c : R) :
  shape1 X = shape1 Y ->
  sigmoid_kernel (NdArray X) (NdArray Y) b c
  = Ok (NdArray (amap tanh (amap (fun t => t + c)
                   (scale b (matmul X (transpose Y)))))).
Proof.
  intros H. unfold sigmoid_kernel. simpl.
  unfold shapes_aligned. simpl. rewrite H, Nat.eqb_refl. reflexivity.
Qed.

Lemma sigmoid_kernel_sparse (X Y : matrix) (b c : R) :
  sigmoid_kernel (SpMatrix X) (SpMatrix Y) b c
  = sigmoid_kernel (NdArray X) (NdArray Y) b c.
Proof. reflexivity. Qed.

(** C1.  [sigmoid_kernel] does not return tanh(c x y + b): the source
    computes tanh(b x y + c), with scale and bias exchanged.  At x = y = 0
    with the defaults b = 1, c = 0 it returns tanh(1*0*0 + 0) = 0, while
    tanh(0*0*0 + 1) = tanh 1 is not 0. *)
Theorem sigmoid_kernel_exchanges_scale_and_bias :
  sigmoid_kernel (Num (PyInt 0)) (Num (PyInt 0)) 1 0 = Ok (NpFloat 0) /\
  tanh (0 * IZR 0 * IZR 0 + 1) <> 0.
Proof.
  split.
  - rewrite sigmoid_kernel_scalars. simpl.
    replace (1 * 0 * 0 + 0) with 0 by ring.
    rewrite tanh_at_0. reflexivity.
  - replace (0 * 0 * 0 + 1) with 1 by ring. exact tanh_at_1_nonzero.
Qed.

(** The bias [b] of [poly_kernel] is used in no branch. *)
Lemma poly_kernel_ignores_bias (x y : pyval) (p : nat) (b b' : R) :
  poly_kernel x y p b = poly_kernel x y p b'.
Proof. reflexivity. Qed.

Lemma poly_kernel_scalars (x y : pynum) (p : nat) (b : R) :
  exists v, poly_kernel (Num x) (Num y) p b = Ok (Num v) /\
            num_R v = (num_R x * num_R y) ^ p.
Proof.
  destruct x as [m | r], y as [n | s]; simpl; eexists; (split; [reflexivity |]);
    simpl; try reflexivity.
  rewrite <- mult_IZR. symmetry. apply pow_IZR.
Qed.

(** C2.  In the dense branch [poly_kernel] returns (x y^T)^p and not
    (b + x y^T)^p: for the 1 x 1 arrays x = y = [[1]], p = 2 and b = 1 the
    result is [[1]], while (1 + 1*1)^2 = 4. *)
Theorem poly_kernel_dense_drops_bias :
  poly_kernel (NdArray (mk_ndarray 1 1 [[1]])) (NdArray (mk_ndarray 1 1 [[1]])) 2 1
  = Ok (NdArray (mk_ndarray 1 1 [[1]])) /\
  (1 + 1 * 1) ^ 2 <> 1.
Proof.
  split.
  - unfold poly_kernel. simpl.
    unfold amap, matmul, transpose, tabulate, get. simpl.
    replace (_ * _) with 1 by ring. reflexivity.
  - lra.
Qed.

(** [linear_kernel] on a Python int multiplies. *)
Lemma linear_kernel_int (m : Z) (y : pynum) :
  linear_kernel (Num (PyInt m)) (Num y) = Ok (Num (num_mul (PyInt m) y)).
Proof. reflexivity. Qed.

(** On numpy scalars the generic branch multiplies as well. *)
Lemma linear_kernel_npfloat (a b : R) :
  linear_kernel (NpFloat a) (NpFloat b) = Ok (NpFloat (a * b)).
Proof. reflexivity. Qed.

(** A Python float is not an [int] and has no attribute [dot]. *)
Lemma linear_kernel_pyfloat (a : R) (y : pyval) :
  linear_kernel (Num (PyFloat a)) y = Raise (AttributeError "dot").
Proof. reflexivity. Qed.

(** C6.  [linear_kernel] does not return the product for every pair of
    scalars: for the Python floats x = 2.5 and y = 3.0 the test
    [isinstance(x, int)] fails and [x.dot] raises an AttributeError. *)
Theorem linear_kernel_float_scalars_raise :
  linear_kernel (Num (PyFloat (5 / 2))) (Num (PyFloat 3))
  = Raise (AttributeError "dot").
Proof. apply linear_kernel_pyfloat. Qed.

(** ** Finite sums *)

Lemma sum_n_ext (n : nat) (g h : nat -> R) :
  (forall k, (k < n)%nat -> g k = h k) -> sum_n n g = sum_n n h.
Proof.
  induction n as [| n IH]; intros E; simpl.
  - reflexivity.
  - rewrite IH by (intros k Hk; apply E; lia). rewrite E by lia. reflexivity.
Qed.

Lemma sum_n_plus (n : nat) (g h : nat -> R) :
  sum_n n (fun k => g k + h k) = sum_n n g + sum_n n h.
Proof. induction n as [| n IH]; simpl; [ring | rewrite IH; ring]. Qed.

Lemma sum_n_minus (n : nat) (g h : nat -> R) :
  sum_n n (fun k => g k - h k) = sum_n n g - sum_n n h.
Proof. induction n as [| n IH]; simpl; [ring | rewrite IH; ring]. Qed.

Lemma sum_n_scal_l (n : nat) (a : R) (g : nat -> R) :
  sum_n n (fun k => a * g k) = a * sum_n n g.
Proof. induction n as [| n IH]; simpl; [ring | rewrite IH; ring]. Qed.

Lemma sum_n_scal_r (n : nat) (a : R) (g : nat -> R) :
  sum_n n (fun k => g k * a) = sum_n n g * a.
Proof. induction n as [| n IH]; simpl; [ring | rewrite IH; ring]. Qed.

Lemma sum_n_const (n : nat) (a : R) : sum_n n (fun _ => a) = INR n * a.
Proof.
  induction n as [| n IH].
  - simpl. ring.
  - rewrite S_INR. simpl. rewrite IH. ring.
Qed.

Lemma sum_n_zero (n : nat) : sum_n n (fun _ => 0) = 0.
Proof. rewrite sum_n_const. ring. Qed.

(** Exchange of the order of summation. *)
Lemma sum_n_swap (n m : nat) (g : nat -> nat -> R) :
  sum_n n (fun i => sum_n m (fun j => g i j))
  = sum_n m (fun j => sum_n n (fun i => g i j)).
Proof.
  induction n as [| n IH]; simpl.
  - symmetry. apply sum_n_zero.
  - rewrite IH, <- sum_n_plus. reflexivity.
Qed.

Lemma kron_sym (i j : nat) : kron i j = kron j i.
Proof. unfold kron. rewrite (Nat.eqb_sym i j). reflexivity. Qed.

(** A sum against a Kronecker delta picks one term. *)
Lemma sum_n_kron_l (n i : nat) (g : nat -> R) :
  (i < n)%nat -> sum_n n (fun k => kron i k * g k) = g i.
Proof.
  induction n as [| n IH]; intros Hi; [lia |].
  simpl. unfold kron at 2. destruct (Nat.eqb_spec i n) as [-> | Hne].
  - rewrite (sum_n_ext n _ (fun _ => 0)).
    + rewrite sum_n_zero. ring.
    + intros k Hk. unfold kron. destruct (Nat.eqb_spec n k); [lia | ring].
  - rewrite IH by lia. ring.
Qed.

Lemma sum_n_kron_r (n j : nat) (g : nat -> R) :
  (j < n)%nat -> sum_n n (fun k => g k * kron k j) = g j.
Proof.
  intros Hj. rewrite <- (sum_n_kron_l n j g Hj).
  apply sum_n_ext. intros k _. rewrite (kron_sym k j). ring.
Qed.

(** ** Products of entry functions *)

Lemma mm_assoc (p q : nat) (a b c : nat -> nat -> R) (i j : nat) :
  mm q (mm p a b) c i j = mm p a (mm q b c) i j.
Proof.
  unfold mm.
  rewrite (sum_n_ext q _ (fun k => sum_n p (fun l => a i l * b l k * c k j)))
    by (intros k _; symmetry; apply sum_n_scal_r).
  rewrite sum_n_swap.
  apply sum_n_ext. intros l _.
  rewrite <- sum_n_scal_l. apply sum_n_ext. intros k _. ring.
Qed.

Lemma mm_ext (p : nat) (a a' b b' : nat -> nat -> R) (i j : nat) :
  (forall k, (k < p)%nat -> a i k = a' i k) ->
  (forall k, (k < p)%nat -> b k j = b' k j) ->
  mm p a b i j = mm p a' b' i j.
Proof.
  intros Ea Eb. unfold mm. apply sum_n_ext. intros k Hk.
  rewrite Ea, Eb by exact Hk. reflexivity.
Qed.

Lemma cen_sym (n i j : nat) : cen n i j = cen n j i.
Proof. unfold cen. rewrite kron_sym. reflexivity. Qed.

(** Left multiplication by the centering matrix subtracts column means. *)
Lemma mm_cen_l (n : nat) (g : nat -> nat -> R) (i j : nat) :
  (i < n)%nat ->
  mm n (cen n) g i j = g i j - sum_n n (fun l => g l j) / INR n.
Proof.
  intros Hi. unfold mm, cen.
  rewrite (sum_n_ext n _ (fun k => kron i k * g k j - 1 / INR n * g k j))
    by (intros k _; ring).
  rewrite sum_n_minus, sum_n_kron_l by exact Hi.
  rewrite sum_n_scal_l. unfold Rdiv. ring.
Qed.

(** The centering matrix is idempotent. *)
Lemma cen_idem (n i j : nat) :
  (i < n)%nat -> (j < n)%nat -> mm n (cen n) (cen n) i j = cen n i j.
Proof.
  intros Hi Hj. rewrite mm_cen_l by exact Hi.
  assert (Hn : INR n <> 0) by (apply not_0_INR; lia).
  unfold cen at 2.
  rewrite sum_n_minus, sum_n_const.
  rewrite (sum_n_ext n (fun l => kron l j) (fun l => 1 * kron l j))
    by (intros; ring).
  rewrite sum_n_kron_r by exact Hj. unfold cen.
  generalize (kron i j). intros q. field. exact Hn.
Qed.

(** ** [center_kernel] and [center_kernel_low_rank] *)

Lemma get_matmul (A B : matrix) (i j : nat) :
  (i < shape0 A)%nat -> (j < shape1 B)%nat ->
  (matmul A B).[i, j] = mm (shape1 A) (get 0 A) (get 0 B) i j.
Proof. intros Hi Hj. unfold matmul. rewrite get_tabulate by assumption. reflexivity. Qed.

Lemma get_transpose (A : matrix) (i j : nat) :
  (i < shape1 A)%nat -> (j < shape0 A)%nat -> (transpose A).[i, j] = A.[j, i].
Proof.
  intros Hi Hj. unfold transpose. rewrite get_tabulate by assumption. reflexivity.
Qed.








(** [center_kernel_low_rank] multiplies by the centering matrix on the
    left. *)
Lemma center_kernel_low_rank_entries (G : matrix) :
  center_kernel_low_rank G
  = Ok (tabulate (shape0 G) (shape1 G) (mm (shape0 G) (cen (shape0 G)) (get 0 G))).
Proof.
  unfold center_kernel_low_rank, msub, broadcast2. simpl.
  rewrite broadcast_dim_one, broadcast_dim_same. f_equal.
  apply tabulate_ext. intros i j Hi Hj.
  rewrite !bidx_in_range by exact Hi || exact Hj.
  change (bidx 1 i) with O.
  unfold mean_axis0. rewrite get_tabulate by (exact Hj || lia).
  symmetry. apply mm_cen_l. exact Hi.
Qed.


(** ** [kernel_row_normalize] *)

Lemma kernel_row_normalize_entries (K : matrix) (n : nat) :
  shape0 K = n -> shape1 K = n ->
  kernel_row_normalize K
  = Ok (tabulate n n
          (fun i j => np_divide K.[i, j] (np_sqrt (K.[i, i] * K.[j, j])))).
Proof.
  intros H0 H1. unfold kernel_row_normalize, reshape_col, np_diag.
  rewrite length_map, length_seq, H0, H1, Nat.min_id, Nat.eqb_refl. simpl.
  unfold mdot, shapes_aligned. simpl.
  unfold broadcast2. simpl. rewrite H0, H1, broadcast_dim_same.
  f_equal. apply tabulate_ext. intros i j Hi Hj.
  rewrite !bidx_in_range by exact Hi || exact Hj.
  rewrite get_tabulate by assumption.
  rewrite get_matmul by (simpl; assumption).
  unfold mm. simpl.
  rewrite get_transpose by (simpl; lia).
  rewrite !get_tabulate by lia.
  rewrite !(nth_map_seq 0 (fun i => K.[i, i])) by assumption.
  rewrite Rplus_0_l. reflexivity.
Qed.

Lemma np_sqrt_pos (x : R) : 0 < x -> np_sqrt x = Finite (sqrt x).
Proof. intros Hx. unfold np_sqrt. destruct (Rlt_dec x 0); [lra | reflexivity]. Qed.

Lemma np_sqrt_0 : np_sqrt 0 = Finite 0.
Proof.
  unfold np_sqrt. destruct (Rlt_dec 0 0); [lra |]. rewrite sqrt_0. reflexivity.
Qed.

Lemma np_divide_nonzero (x r : R) : r <> 0 -> np_divide x (Finite r) = Finite (x / r).
Proof. intros Hr. unfold np_divide. destruct (Req_EM_T r 0); [contradiction | reflexivity]. Qed.

(** A division by zero yields nan or an infinity. *)
Lemma np_divide_by_zero (x : R) : is_finite (np_divide x (Finite 0)) = false.
Proof.
  unfold np_divide. destruct (Req_EM_T 0 0) as [_ | N]; [| contradiction N; reflexivity].
  destruct (Req_EM_T x 0); [reflexivity |]. destruct (Rlt_dec 0 x); reflexivity.
Qed.

(** With a strictly positive diagonal every entry of the result is
    finite. *)
Lemma kernel_row_normalize_finite (K : matrix) (n : nat) :
  shape0 K = n -> shape1 K = n ->
  (forall i, (i < n)%nat -> 0 < K.[i, i]) ->
  exists M,
    kernel_row_normalize K = Ok M /\
    forall i j, (i < n)%nat -> (j < n)%nat ->
      get NaN M i j = Finite (K.[i, j] / sqrt (K.[i, i] * K.[j, j])).
Proof.
  intros H0 H1 Hpos. eexists.
  split; [exact (kernel_row_normalize_entries K n H0 H1) |].
  intros i j Hi Hj. rewrite get_tabulate by assumption.
  assert (Hp : 0 < K.[i, i] * K.[j, j])
    by (apply Rmult_lt_0_compat; apply Hpos; assumption).
  rewrite np_sqrt_pos by exact Hp.
  apply np_divide_nonzero. apply Rgt_not_eq. apply sqrt_lt_R0. exact Hp.
Qed.

(** C10.  [kernel_row_normalize] divides without a guard: on a square K
    it never raises; if every diagonal entry is strictly positive, every
    entry of the result is the finite number K[i,j] / sqrt(K[i,i] K[j,j]);
    and if K[i,i] = 0, the entries of row i and of column i are the
    outcomes of a division by zero (nan or an infinity). *)
Theorem kernel_row_normalize_unguarded (K : matrix) (n : nat) :
  shape0 K = n -> shape1 K = n ->
  exists M,
    kernel_row_normalize K = Ok M /\ shape0 M = n /\ shape1 M = n /\
    ((forall i, (i < n)%nat -> 0 < K.[i, i]) ->
     forall i j, (i < n)%nat -> (j < n)%nat ->
       get NaN M i j = Finite (K.[i, j] / sqrt (K.[i, i] * K.[j, j]))) /\
    (forall i j, (i < n)%nat -> (j < n)%nat -> K.[i, i] = 0 ->
       get NaN M i j = np_divide K.[i, j] (Finite 0) /\
       get NaN M j i = np_divide K.[j, i] (Finite 0) /\
       is_finite (get NaN M i j) = false /\
       is_finite (get NaN M j i) = false).
Proof.
  intros H0 H1. eexists. split; [exact (kernel_row_normalize_entries K n H0 H1) |].
  split; [reflexivity |]. split; [reflexivity |]. split.
  - intros Hpos i j Hi Hj.
    destruct (kernel_row_normalize_finite K n H0 H1 Hpos) as [M [HM Hfin]].
    rewrite (kernel_row_normalize_entries K n H0 H1) in HM.
    injection HM as <-. apply Hfin; assumption.
  - intros i j Hi Hj Hz. rewrite !get_tabulate by assumption.
    rewrite Hz, Rmult_0_l, Rmult_0_r, np_sqrt_0.
    repeat split; try reflexivity; apply np_divide_by_zero.
Qed.

Lemma kernel_row_normalize_unguarded_witness :
  let K := mk_ndarray 1 1 [[0]] in
  shape0 K = 1%nat /\ shape1 K = 1%nat /\
  exists M,
    kernel_row_normalize K = Ok M /\
    get NaN M 0 0 = np_divide K.[0, 0] (Finite 0) /\
    is_finite (get NaN M 0 0) = false.
Proof.
  split; [reflexivity |]. split; [reflexivity |].
  destruct (kernel_row_normalize_unguarded (mk_ndarray 1 1 [[0]]) 1
              eq_refl eq_refl) as [M [HM [_ [_ [_ Hz]]]]].
  exists M. split; [exact HM |].
  destruct (Hz O O (Nat.lt_0_succ 0) (Nat.lt_0_succ 0) eq_refl) as [E [_ [F _]]].
  split; assumption.
Defined.

(** *** Positive semidefinite kernels *)

Lemma sum_n_pick2 (n i j : nat) (a b : R) (g : nat -> R) :
  (i < n)%nat -> (j < n)%nat ->
  sum_n n (fun p => (a * kron i p + b * kron j p) * g p) = a * g i + b * g j.
Proof.
  intros Hi Hj.
  rewrite (sum_n_ext n _ (fun p => a * (kron i p * g p) + b * (kron j p * g p)))
    by (intros; ring).
  rewrite sum_n_plus, !sum_n_scal_l, !sum_n_kron_l by assumption.
  reflexivity.
Qed.

(** The quadratic form on a combination of two unit vectors. *)
Lemma quad_two_units (K : matrix) (n i j : nat) (a b : R) :
  (i < n)%nat -> (j < n)%nat ->
  quad K n (fun p => a * kron i p + b * kron j p)
  = a * a * K.[i, i] + a * b * K.[i, j] + b * a * K.[j, i] + b * b * K.[j, j].
Proof.
  intros Hi Hj. unfold quad.
  rewrite (sum_n_ext n _
             (fun p => (a * kron i p + b * kron j p)
                       * (a * K.[p, i] + b * K.[p, j]))).
  - rewrite sum_n_pick2 by assumption. ring.
  - intros p _.
    rewrite (sum_n_ext n _
               (fun q => (a * kron i q + b * kron j q)
                         * ((a * kron i p + b * kron j p) * K.[p, q])))
      by (intros; ring).
    rewrite sum_n_pick2 by assumption. ring.
Qed.

Lemma psd_diag_nonneg (K : matrix) (n i : nat) :
  psd K n -> (i < n)%nat -> 0 <= K.[i, i].
Proof.
  intros [_ [_ [_ Hq]]] Hi.
  pose proof (Hq (fun p => 1 * kron i p + 0 * kron i p)) as H.
  rewrite quad_two_units in H by assumption. lra.
Qed.

(** The 2 x 2 minors of a positive semidefinite matrix. *)
Lemma psd_minor (K : matrix) (n i j : nat) :
  psd K n -> (i < n)%nat -> (j < n)%nat -> 0 < K.[j, j] ->
  K.[i, j] * K.[i, j] <= K.[i, i] * K.[j, j].
Proof.
  intros [_ [_ [Hs Hq]]] Hi Hj Hjj.
  pose proof (Hq (fun p => K.[j, j] * kron i p + (- K.[i, j]) * kron j p)) as H.
  rewrite quad_two_units in H by assumption.
  rewrite <- (Hs i j Hi Hj) in H.
  assert (E : K.[j, j] * K.[j, j] * K.[i, i] + K.[j, j] * - K.[i, j] * K.[i, j]
              + - K.[i, j] * K.[j, j] * K.[i, j] + - K.[i, j] * - K.[i, j] * K.[j, j]
              = K.[j, j] * (K.[i, i] * K.[j, j] - K.[i, j] * K.[i, j])) by ring.
  rewrite E in H.
  assert (0 <= K.[i, i] * K.[j, j] - K.[i, j] * K.[i, j]); [| lra].
  apply (Rmult_le_reg_l K.[j, j]); [exact Hjj | lra].
Qed.

(** C9, counterexample.  The 1 x 1 zero matrix is positive semidefinite,
    but [kernel_row_normalize] turns its entry into 0/0 = nan, not 1. *)
Lemma kernel_row_normalize_zero_diagonal :
  psd (mk_ndarray 1 1 [[0]]) 1 /\ ~ normalizes (mk_ndarray 1 1 [[0]]) 1.
Proof.
  split.
  - repeat split.
    + intros i j Hi Hj. replace i with O by lia. replace j with O by lia. reflexivity.
    + intros v. unfold quad, get. simpl. lra.
  - intros [M [HM HC]].
    rewrite (kernel_row_normalize_entries (mk_ndarray 1 1 [[0]]) 1 eq_refl eq_refl)
      in HM.
    injection HM as <-.
    destruct (HC O O (Nat.lt_0_succ 0) (Nat.lt_0_succ 0)) as [_ [_ H1]].
    rewrite get_tabulate in H1 by lia.
    unfold get in H1. simpl in H1.
    rewrite Rmult_0_l, np_sqrt_0 in H1.
    pose proof (np_divide_by_zero 0) as F. rewrite H1 in F. discriminate F.
Qed.

(** C9, amended.  For a positive semidefinite K without a zero on its
    diagonal, [kernel_row_normalize] returns the matrix of the entries
    K[i,j] / sqrt(K[i,i] K[j,j]); its diagonal is 1 and every entry lies in
    [-1, 1]. *)
Theorem kernel_row_normalize_psd (K : matrix) (n : nat) :
  psd K n ->
  (forall i, (i < n)%nat -> K.[i, i] <> 0) ->
  normalizes K n.
Proof.
  intros Hpsd Hnz.
  assert (Hpos : forall i, (i < n)%nat -> 0 < K.[i, i]).
  { intros i Hi. pose proof (psd_diag_nonneg K n i Hpsd Hi).
    pose proof (Hnz i Hi). lra. }
  pose proof Hpsd as [H0 [H1 _]].
  destruct (kernel_row_normalize_finite K n H0 H1 Hpos) as [M [HM Hfin]].
  exists M. split; [exact HM |].
  intros i j Hi Hj.
  pose proof (Hpos i Hi) as Pi. pose proof (Hpos j Hj) as Pj.
  split; [apply Hfin; assumption |]. split.
  - assert (Hm : K.[i, j] * K.[i, j] <= K.[i, i] * K.[j, j])
      by (apply (psd_minor K n); assumption).
    assert (Hp : 0 < K.[i, i] * K.[j, j]) by (apply Rmult_lt_0_compat; assumption).
    pose proof (sqrt_lt_R0 _ Hp) as Hs.
    pose proof (sqrt_sqrt (K.[i, i] * K.[j, j]) (Rlt_le _ _ Hp)) as Hss.
    set (s := sqrt (K.[i, i] * K.[j, j])) in *.
    assert (Hb : - s <= K.[i, j] <= s) by (split; nra).
    split.
    + apply (Rmult_le_reg_r s); [exact Hs |].
      unfold Rdiv. rewrite Rmult_assoc, Rinv_l by lra. lra.
    + apply (Rmult_le_reg_r s); [exact Hs |].
      unfold Rdiv. rewrite Rmult_assoc, Rinv_l by lra. lra.
  - rewrite (Hfin i i Hi Hi). f_equal.
    rewrite sqrt_square by lra. apply Rinv_r. lra.
Qed.

Lemma kernel_row_normalize_psd_witness :
  let K := mk_ndarray 1 1 [[4]] in
  psd K 1 /\ (forall i, (i < 1)%nat -> K.[i, i] <> 0) /\ normalizes K 1.
Proof.
  assert (P : psd (mk_ndarray 1 1 [[4]]) 1).
  { repeat split.
    - intros i j Hi Hj. replace i with O by lia. replace j with O by lia. reflexivity.
    - intros v. unfold quad, get. simpl. nra. }
  assert (N : forall i, (i < 1)%nat -> (mk_ndarray 1 1 [[4]]).[i, i] <> 0).
  { intros i Hi. replace i with O by lia. unfold get. simpl. lra. }
  split; [exact P |]. split; [exact N |].
  exact (kernel_row_normalize_psd (mk_ndarray 1 1 [[4]]) 1 P N).
Defined.

(** ** Index lists: [np.where], [np.argsort], [np.argmax] *)

Lemma where_from_length (i j : nat) (mask : list bool) :
  List.length (where_from i mask) = List.length (where_from j mask).
Proof.
  revert i j. induction mask as [| b mask IH]; intros i j; simpl.
  - reflexivity.
  - destruct b; simpl; rewrite (IH (S i) (S j)); reflexivity.
Qed.

Lemma where_from_bounds (i : nat) (mask : list bool) (x : nat) :
  In x (where_from i mask) -> (i <= x < i + List.length mask)%nat.
Proof.
  revert i. induction mask as [| b mask IH]; intros i; simpl.
  - intros [].
  - destruct b; simpl.
    + intros [<- | H]; [lia | apply IH in H; lia].
    + intros H. apply IH in H. lia.
Qed.

Lemma occurrences_cons (x : nat) (P : list nat) (j : nat) :
  occurrences (x :: P) j = ((if (j =? x)%nat then 1 else 0) + occurrences P j)%nat.
Proof.
  unfold occurrences, np_where. simpl.
  destruct (j =? x)%nat; simpl; rewrite (where_from_length 1 0); reflexivity.
Qed.

(** Over the labels [0 .. k-1] the occurrences add up to the length. *)
Lemma occurrences_sum_seq (P : list nat) (k : nat) :
  Forall (fun j => j < k)%nat P ->
  list_sum (map (occurrences P) (seq 0 k)) = List.length P.
Proof.
  intros HP. induction HP as [| x P Hx HP IH]; simpl.
  - induction (seq 0 k) as [| a l IHl]; simpl; [reflexivity | exact IHl].
  - rewrite <- IH.
    rewrite (map_ext _ (fun j => ((if (j =? x)%nat then 1 else 0) + occurrences P j)%nat))
      by (intros; apply occurrences_cons).
    assert (G : forall (l : list nat),
               NoDup l ->
               list_sum (map (fun j => ((if (j =? x)%nat then 1 else 0)
                                        + occurrences P j)%nat) l)
               = ((if in_dec Nat.eq_dec x l then 1 else 0)
                  + list_sum (map (occurrences P) l))%nat).
    { induction l as [| a l IHl]; intros ND; simpl; [reflexivity |].
      inversion ND as [| ? ? Hnin ND']; subst.
      rewrite (IHl ND').
      destruct (Nat.eqb_spec a x) as [-> | Hne].
      - destruct (Nat.eq_dec x x) as [E | N]; [| contradiction N; reflexivity].
        destruct (in_dec Nat.eq_dec x l) as [Hin | Hout]; [contradiction | lia].
      - destruct (Nat.eq_dec a x) as [E | N]; [contradiction |].
        destruct (in_dec Nat.eq_dec x l); lia. }
    rewrite (G (seq 0 k) (seq_NoDup k 0)).
    destruct (in_dec Nat.eq_dec x (seq 0 k)) as [Hin | N]; [reflexivity |].
    exfalso. apply N. apply in_seq. lia.
Qed.

Lemma insert_desc_perm (c : vector) (x : nat) (l : list nat) :
  Permutation (insert_desc c x l) (x :: l).
Proof.
  induction l as [| h l IH]; simpl.
  - apply Permutation_refl.
  - destruct (Rlt_dec (nth h c 0) (nth x c 0)).
    + apply Permutation_refl.
    + apply Permutation_trans with (h :: x :: l).
      * apply perm_skip. exact IH.
      * apply perm_swap.
Qed.

(** [np.argsort] returns a permutation of the indices. *)
Lemma argsort_desc_perm (c : vector) :
  Permutation (argsort_desc c) (seq 0 (List.length c)).
Proof.
  unfold argsort_desc.
  assert (G : forall l acc,
             Permutation (fold_left (fun acc x => insert_desc c x acc) l acc)
                         (l ++ acc)).
  { induction l as [| x l IH]; intros acc; simpl.
    - apply Permutation_refl.
    - eapply Permutation_trans; [apply IH |].
      eapply Permutation_trans;
        [apply Permutation_app_head; apply insert_desc_perm |].
      apply Permutation_sym. apply Permutation_middle. }
  specialize (G (seq 0 (List.length c)) []). rewrite app_nil_r in G. exact G.
Qed.

Lemma list_sum_perm (l l' : list nat) :
  Permutation l l' -> list_sum l = list_sum l'.
Proof. induction 1; simpl; lia. Qed.

(** The column order built from [korder] lists every committed column
    once. *)
Lemma porder_length (P : list nat) (c : vector) :
  Forall (fun j => j < List.length c)%nat P ->
  List.length (flat_map (fun j => np_where (mask_eq P j)) (argsort_desc c))
  = List.length P.
Proof.
  intros HP. rewrite length_flat_map.
  rewrite <- (occurrences_sum_seq P (List.length c) HP).
  apply list_sum_perm. apply Permutation_map. apply argsort_desc_perm.
Qed.

Lemma porder_in_range (P : list nat) (l : list nat) :
  forallb (fun i => i <? List.length P)%nat
          (flat_map (fun j => np_where (mask_eq P j)) l) = true.
Proof.
  apply forallb_forall. intros x Hx.
  apply in_flat_map in Hx. destruct Hx as [j [_ Hx]].
  apply where_from_bounds in Hx. unfold mask_eq in Hx. rewrite length_map in Hx.
  apply Nat.ltb_lt. lia.
Qed.

Lemma argmax_from_bound (l : list npfloat) (bi : nat) (b : npfloat) (i : nat) :
  (bi < i)%nat -> (argmax_from bi b i l < i + List.length l)%nat.
Proof.
  revert bi b i. induction l as [| x l IH]; intros bi b i Hb; simpl.
  - lia.
  - destruct (is_nan b); [lia |].
    destruct (is_nan x || npf_lt b x).
    + specialize (IH i x (S i)). lia.
    + specialize (IH bi b (S i)). lia.
Qed.

Lemma np_argmax_bound (l : list npfloat) (idx : nat) :
  np_argmax l = Ok idx -> (idx < List.length l)%nat.
Proof.
  destruct l as [| x l]; simpl; intros H; [discriminate H |].
  injection H as <-.
  pose proof (argmax_from_bound l 0 x 1). lia.
Qed.

Lemma set_nth_length {T : Type} (i : nat) (x : T) (l : list T) :
  List.length (set_nth i x l) = List.length l.
Proof.
  revert i. induction l as [| h l IH]; intros [| i]; simpl; auto.
Qed.

Lemma set_nth_Forall {T : Type} (Q : T -> Prop) (i : nat) (x : T) (l : list T) :
  Q x -> Forall Q l -> Forall Q (set_nth i x l).
Proof.
  intros Hx. revert i. induction l as [| h l IH]; intros i Hl; destruct i; simpl;
    inversion Hl; subst; auto.
Qed.

(** ** [mkl_qr] *)

Section MklQrFacts.

Variable cholesky_steps :
  matrix -> matrix -> list nat -> list nat ->
  option nat -> option nat -> option (list nat) ->
  (nat -> nat -> R) * list nat * list nat.
Variable qr_steps :
  matrix -> matrix -> matrix -> nat -> nat -> nat ->
  (nat -> nat -> R) * (nat -> nat -> R).
Variable qr_reorder :
  matrix -> matrix -> nat -> list nat ->
  (nat -> nat -> R) * (nat -> nat -> R).
Variable qr_orient :
  matrix -> matrix -> matrix -> (nat -> nat -> R) * (nat -> nat -> R).
Variable div : R -> R -> R.
Variable Ks : list matrix.
Variable y : matrix.
Variable rank : nat.
Variable f : nat -> R.

(** C4.  With [delta = 1], [mkl_qr] raises the configuration error
    "Unstable selection of delta" whatever the other arguments are, and
    its trace is empty: no buffer was allocated and no Cholesky or QR
    step was run. *)
Theorem mkl_qr_delta_one_raises :
  mkl_qr cholesky_steps qr_steps qr_reorder qr_orient div Ks y rank 1 f
  = ([], Raise unstable_delta).
Proof. reflexivity. Qed.

Variable delta : nat.

Local Abbreviation k := (num_kernels Ks).
Local Abbreviation setup := (qr_setup cholesky_steps Ks rank delta).
Local Abbreviation iter := (qr_iter cholesky_steps qr_steps div Ks y rank delta f).
Local Abbreviation loop := (qr_loop cholesky_steps qr_steps div Ks y rank delta f).
Local Abbreviation finalize := (qr_finalize qr_reorder qr_orient y).
Local Abbreviation from :=
  (qr_from cholesky_steps qr_steps qr_reorder qr_orient div Ks y rank delta f).
Local Abbreviation run :=
  (mkl_qr cholesky_steps qr_steps qr_reorder qr_orient div Ks y rank delta f).
Local Abbreviation at_step :=
  (reaches cholesky_steps qr_steps div Ks y rank delta f).

(** *** The trace monad *)

Lemma mbind_ok {A B : Type} (tr : list event) (a : A) (c : M A) (g : A -> M B) :
  c = (tr, Ok a) -> mbind c g = (tr ++ fst (g a), snd (g a)).
Proof. intros ->. simpl. destruct (g a). reflexivity. Qed.


Lemma lift_inv {A : Type} (c : result A) (tr : list event) (a : A) :
  lift c = (tr, Ok a) -> c = Ok a /\ tr = [].
Proof. unfold lift. intros H. injection H as <- ->. auto. Qed.

(** *** Shapes kept by the loop *)

Local Abbreviation w := (rank + k * delta)%nat.
Local Abbreviation inv := (qr_inv Ks rank delta).

Lemma setup_factors_ok (n : nat) (ks : list matrix) :
  exists tr Gs, setup_factors cholesky_steps rank delta n ks = (tr, Ok Gs).
Proof.
  induction ks as [| K ks [tr [Gs IH]]]; simpl.
  - eexists. eexists. reflexivity.
  - destruct (0 <? delta)%nat; simpl.
    + destruct (cholesky_steps K (np_zeros n (rank + delta)) [] (seq 0 n)
                               None (Some delta) None) as [[e a] i].
      simpl. rewrite IH. simpl. eexists. eexists. reflexivity.
    + rewrite IH. simpl. eexists. eexists. reflexivity.
Qed.

Lemma Forall_repeat {T : Type} (Q : T -> Prop) (x : T) (m : nat) :
  Q x -> Forall Q (repeat x m).
Proof. intros Hx. induction m; simpl; constructor; assumption. Qed.

Lemma setup_inv (n : nat) (st0 : qr_state) (tr : list event) :
  setup = (tr, Ok (n, st0)) -> inv n 0 st0.
Proof.
  unfold qr_setup, qr_inv. generalize (num_kernels Ks). intros kk.
  case Ks as [| K0 ks].
  - intros H. discriminate H.
  - destruct (setup_factors_ok (shape0 K0) (K0 :: ks)) as [tr' [Gs E]].
    cbn [mbind emit]. rewrite E. cbn [mbind ret app].
    intros H. injection H as _ <- <-. cbn [sQ sR sP cost gain].
    repeat match goal with |- _ /\ _ => split end;
      try reflexivity; try apply repeat_length.
    + constructor.
    + apply Forall_repeat. apply repeat_length.
Qed.

Lemma assign_row_length (n : nat) (v row : list npfloat) :
  assign_row n v = Ok row -> List.length row = n.
Proof.
  unfold assign_row. destruct (Nat.eqb_spec (List.length v) n) as [E | _].
  - intros H. injection H as <-. exact E.
  - destruct (List.length v =? 1)%nat; intros H; [| discriminate H].
    injection H as <-. apply repeat_length.
Qed.

Lemma set_neg_inf_length (idx : list nat) (row row' : list npfloat) :
  set_neg_inf idx row = Ok row' -> List.length row' = List.length row.
Proof.
  unfold set_neg_inf.
  destruct (forallb _ idx); intros H; [| discriminate H]. injection H as <-.
  revert row. induction idx as [| a idx IH]; intros row; simpl.
  - reflexivity.
  - rewrite IH. apply set_nth_length.
Qed.

Lemma fill_gain_shape (n step : nat) (st : qr_state) (Qa QTY : matrix)
    (js : list nat) (g g' : list (list npfloat)) (m : nat) :
  fill_gain div Ks y delta f n step st Qa QTY js g = Ok g' ->
  List.length g = m -> Forall (fun row => List.length row = n) g ->
  List.length g' = m /\ Forall (fun row => List.length row = n) g'.
Proof.
  revert g. induction js as [| j js IH]; intros g; simpl.
  - intros H. injection H as <-. auto.
  - destruct (gain_value div Ks y delta f step st Qa QTY j) as [v | e]; simpl;
      [| intros H; discriminate H].
    destruct (assign_row n v) as [row | e] eqn:Er; simpl;
      [| intros H; discriminate H].
    destruct (set_neg_inf (nth j (sActs st) []) row) as [row' | e] eqn:En; simpl;
      [| intros H; discriminate H].
    intros H Hl Hf. apply (IH _ H).
    + rewrite set_nth_length. exact Hl.
    + apply set_nth_Forall; [| exact Hf].
      rewrite (set_neg_inf_length _ _ _ En). apply (assign_row_length _ _ _ Er).
Qed.

Lemma compute_gains_shape (n step : nat) (st : qr_state) (g : list (list npfloat)) :
  compute_gains div Ks y delta f n step st = Ok g ->
  inv n step st ->
  List.length g = k /\ Forall (fun row => List.length row = n) g.
Proof.
  unfold compute_gains. intros H Hinv.
  destruct (mdot (transpose (take_cols step (sQ st))) y) as [QTY | e]; simpl in H;
    [| discriminate H].
  destruct Hinv as [_ [_ [_ [_ [_ [_ [_ [Hl Hf]]]]]]]].
  apply (fill_gain_shape _ _ _ _ _ _ _ _ _ H Hl Hf).
Qed.

Lemma concat_length_uniform {T : Type} (n : nat) (g : list (list T)) :
  Forall (fun row => List.length row = n) g ->
  List.length (concat g) = (List.length g * n)%nat.
Proof.
  induction 1 as [| row g Hr _ IH]; simpl; [reflexivity |].
  rewrite length_app, IH, Hr. reflexivity.
Qed.

(** The kernel chosen by [np.unravel_index] is one of the [k] kernels. *)
Lemma select_pivot_kernel (n : nat) (g : list (list npfloat)) (kern pivot m : nat) :
  select_pivot n g = Ok (kern, pivot) ->
  List.length g = m -> Forall (fun row => List.length row = n) g ->
  (kern < m)%nat.
Proof.
  unfold select_pivot. intros H Hl Hf.
  destruct (np_argmax (concat g)) as [idx | e] eqn:E; simpl in H; [| discriminate H].
  injection H as <- _.
  apply np_argmax_bound in E.
  rewrite (concat_length_uniform n g Hf), Hl in E.
  apply Nat.Div0.div_lt_upper_bound. lia.
Qed.


(** Case analysis of a run in the trace monad. *)
Ltac step_run :=
  match goal with
  | |- context [match ?c with pair _ _ => _ end] =>
      match type of c with
      | prod (list event) (result _) => fail 1
      | prod _ _ => destruct c
      end
  | |- context [match ?c with Ok _ => _ | Raise _ => _ end] => destruct c
  | |- _ = (_, Ok _) -> _ => let H := fresh "H" in intros H; discriminate H
  end.

Lemma commit_state (n step kern pivot : nat) (st st' : qr_state) (tr : list event) :
  commit cholesky_steps qr_steps Ks y delta f n step kern pivot st = (tr, Ok st') ->
  shape0 (sQ st') = shape0 (sQ st) /\ shape1 (sQ st') = shape1 (sQ st) /\
  shape0 (sR st') = shape0 (sR st) /\ shape1 (sR st') = shape1 (sR st) /\
  sP st' = sP st ++ [kern] /\
  List.length (cost st') = List.length (cost st) /\
  gain st' = gain st.
Proof.
  unfold commit. cbv zeta.
  repeat (cbn [mbind emit lift ret]; step_run).
  cbn [mbind emit lift ret]. intros H. injection H as _ <-.
  cbn [sQ sR sP cost gain inplace tabulate shape0 shape1].
  repeat split; try reflexivity. apply set_nth_length.
Qed.


Lemma with_gain_inv (n step : nat) (st : qr_state) (g : list (list npfloat)) :
  inv n step st ->
  List.length g = k -> Forall (fun row => List.length row = n) g ->
  inv n step (with_gain st g).
Proof.
  intros [H1 [H2 [H3 [H4 [H5 [H6 [H7 _]]]]]]] Hl Hf.
  unfold qr_inv, with_gain. cbn [sQ sR sP cost gain]. auto 10.
Qed.

(** A pass that commits a column keeps the shapes and extends [P] by one
    kernel index. *)
Lemma iter_continue_inv (n step : nat) (st st' : qr_state) (tr : list event) :
  iter n step st = (tr, Ok (Continue st')) ->
  inv n step st -> inv n (S step) st'.
Proof.
  unfold qr_iter. intros H Hinv.
  destruct (compute_gains div Ks y delta f n step st) as [g | e] eqn:Eg;
    cbn [mbind lift] in H; [| discriminate H].
  destruct (compute_gains_shape _ _ _ _ Eg Hinv) as [Hl Hf].
  destruct (select_pivot n g) as [[kern pivot] | e] eqn:Es;
    cbn [mbind lift] in H; [| discriminate H].
  destruct (is_zero (gain_at g kern pivot)); cbn [mbind emit ret] in H;
    [discriminate H |].
  destruct (existsb (Nat.eqb pivot) (nth kern (sActs (with_gain st g)) []));
    [discriminate H |].
  destruct (commit cholesky_steps qr_steps Ks y delta f n step kern pivot
                   (with_gain st g)) as [trc [st1 | e]] eqn:Ec;
    cbn [mbind ret] in H; [| discriminate H].
  injection H as _ <-.
  apply commit_state in Ec.
  destruct Ec as [Q0 [Q1 [R0 [R1 [HP [HC HG]]]]]].
  destruct (with_gain_inv n step st g Hinv Hl Hf)
    as [I1 [I2 [I3 [I4 [I5 [I6 [I7 [I8 I9]]]]]]]].
  unfold qr_inv.
  rewrite Q0, Q1, R0, R1, HP, HC, HG.
  repeat match goal with |- _ /\ _ => split end; try assumption.
  - rewrite length_app, I5. simpl. lia.
  - apply Forall_app. split; [exact I6 |].
    constructor; [| constructor].
    apply (select_pivot_kernel n g kern pivot k Es Hl Hf).
Qed.

Lemma reaches_inv (n step : nat) (st : qr_state) (tr : list event) :
  at_step n step st tr -> inv n step st.
Proof.
  induction 1 as [st0 tr H | step st st' tr tr' _ IH H].
  - apply (setup_inv n st0 tr H).
  - apply (iter_continue_inv n step st st' tr' H IH).
Qed.

(** A maximal gain of exactly 0 makes the pass warn and leave the loop. *)
Lemma iter_break (n step : nat) (st : qr_state) :
  max_gain div Ks y delta f n step st = Ok (Finite 0) ->
  exists g,
    compute_gains div Ks y delta f n step st = Ok g /\
    iter n step st = ([Warn step rank], Ok (Break (with_gain st g))).
Proof.
  unfold max_gain, qr_iter. intros H.
  destruct (compute_gains div Ks y delta f n step st) as [g | e];
    cbn [bind] in H; [| discriminate H].
  destruct (select_pivot n g) as [[kern pivot] | e] eqn:Es;
    cbn [bind fst snd] in H; [| discriminate H].
  injection H as H. exists g. split; [reflexivity |].
  cbn [mbind lift]. rewrite Es. rewrite H. unfold is_zero.
  destruct (Req_EM_T 0 0) as [_ | N]; [reflexivity | contradiction N; reflexivity].
Qed.

(** The finalization returns arrays cut to the final rank. *)
Lemma finalize_shapes (n s : nat) (st : qr_state) :
  inv n s st -> (s <= w)%nat ->
  exists Q R P,
    finalize s st = ([QrReorder; QrOrient], Ok (Q, R, P)) /\
    shape0 Q = n /\ shape1 Q = s /\ shape0 R = s /\ shape1 R = s /\
    List.length P = s.
Proof.
  intros [H1 [H2 [H3 [H4 [H5 [H6 [H7 _]]]]]]] Hs.
  unfold qr_finalize. cbv zeta.
  set (porder := flat_map (fun j => np_where (mask_eq (sP st) j))
                          (argsort_desc (cost st))).
  assert (Hp : List.length porder = s).
  { unfold porder. rewrite porder_length; [exact H5 |]. rewrite H7. exact H6. }
  destruct (qr_reorder (sQ st) (sR st) s porder) as [eQ eR].
  destruct (qr_orient (inplace (sQ st) eQ) (inplace (sR st) eR) y) as [eQ' eR'].
  cbn [mbind emit].
  rewrite Hp, Nat.eqb_refl.
  unfold take_indices. unfold porder at 1. rewrite porder_in_range.
  cbn [mbind lift ret app fst snd].
  eexists. eexists. eexists. split; [reflexivity |].
  unfold take_cols, slice_cols, take_block, inplace.
  cbn [tabulate shape0 shape1]. rewrite H1, H2, H3, H4, length_map, Hp.
  repeat split; lia.
Qed.

Lemma from_continue (n step : nat) (rest : list nat) (st st' : qr_state)
    (tr : list event) :
  iter n step st = (tr, Ok (Continue st')) ->
  from n (step :: rest) st
  = (tr ++ fst (from n rest st'), snd (from n rest st')).
Proof.
  intros H. unfold qr_from. cbn [qr_loop]. rewrite H. cbn [mbind].
  destruct (qr_loop cholesky_steps qr_steps div Ks y rank delta f n rest st')
    as [tr1 [[st1 broke] | e]]; cbn [mbind fst snd].
  - destruct (qr_finalize qr_reorder qr_orient y
                (match broke with Some s => s | None => rank end) st1)
      as [tr2 res].
    cbn [fst snd]. rewrite app_assoc. reflexivity.
  - reflexivity.
Qed.

Lemma from_break (n step : nat) (rest : list nat) (st st' : qr_state)
    (tr : list event) :
  iter n step st = (tr, Ok (Break st')) ->
  from n (step :: rest) st
  = (tr ++ fst (finalize step st'), snd (finalize step st')).
Proof.
  intros H. unfold qr_from. cbn [qr_loop]. rewrite H. cbn [mbind ret].
  destruct (qr_finalize qr_reorder qr_orient y step st') as [tr2 res].
  cbn [fst snd]. rewrite app_nil_r. reflexivity.
Qed.

(** The whole run, cut at the head of the loop for [step]. *)
Lemma run_from (n step : nat) (st : qr_state) (tr : list event) :
  at_step n step st tr -> delta <> 1%nat -> (step <= rank)%nat ->
  run = (tr ++ fst (from n (seq step (rank - step)) st),
         snd (from n (seq step (rank - step)) st)).
Proof.
  intros Hr Hd. induction Hr as [st0 tr H | step st st' tr tr' Hr IH H]; intros Hs.
  - unfold mkl_qr. destruct (Nat.eqb_spec delta 1) as [E | _]; [contradiction |].
    rewrite (mbind_ok tr (n, st0) _ _ H). rewrite Nat.sub_0_r. reflexivity.
  - rewrite IH by lia.
    replace (rank - step)%nat with (S (rank - S step)) by lia.
    cbn [seq]. rewrite (from_continue n step _ st st' tr' H).
    cbn [fst snd]. rewrite app_assoc. reflexivity.
Qed.


(** C5.  If the run of [mkl_qr] arrives at step [s] and the maximal entry
    of the gain matrix is exactly 0 there, the call does not raise: it
    warns ("Iterations ended prematurely at step = s < rank"), leaves the
    loop with the rank cut to [s], and returns Q of shape (n, s), R of
    shape (s, s) and P of length s. *)
Theorem mkl_qr_zero_gain_stops (n s : nat) (st : qr_state) (tr : list event) :
  delta <> 1%nat ->
  (s < rank)%nat ->
  at_step n s st tr ->
  max_gain div Ks y delta f n s st = Ok (Finite 0) ->
  exists Q R P,
    run = (tr ++ [Warn s rank; QrReorder; QrOrient], Ok (Q, R, P)) /\
    shape0 Q = n /\ shape1 Q = s /\
    shape0 R = s /\ shape1 R = s /\
    List.length P = s.
Proof.
  intros Hd Hs Hr Hg.
  pose proof (reaches_inv n s st tr Hr) as Hinv.
  destruct (iter_break n s st Hg) as [g [Eg Hb]].
  destruct (compute_gains_shape n s st g Eg Hinv) as [Hl Hf].
  pose proof (with_gain_inv n s st g Hinv Hl Hf) as Hinv'.
  destruct (finalize_shapes n s (with_gain st g) Hinv')
    as [Q [R0 [P [Hfin Hshapes]]]]; [lia |].
  exists Q, R0, P. split; [| exact Hshapes].
  rewrite (run_from n s st tr Hr Hd) by lia.
  replace (rank - s)%nat with (S (rank - S s)) by lia.
  cbn [seq]. rewrite (from_break n s _ st (with_gain st g) _ Hb).
  rewrite Hfin. reflexivity.
Qed.


End MklQrFacts.

Lemma mkl_qr_zero_gain_stops_witness :
  exists st0 tr0,
    (0 <> 1)%nat /\ (0 < 1)%nat /\
    reaches chol_zero (fun _ _ _ _ _ _ => qr_zero) (fun _ _ => 0)
            [zero_1x1] zero_1x1 1 0 (fun _ => 1) 1 0 st0 tr0 /\
    max_gain (fun _ _ => 0) [zero_1x1] zero_1x1 0 (fun _ => 1) 1 0 st0
    = Ok (Finite 0) /\
    exists Q R P,
      mkl_qr chol_zero (fun _ _ _ _ _ _ => qr_zero) (fun _ _ _ _ => qr_zero)
             (fun _ _ _ => qr_zero) (fun _ _ => 0)
             [zero_1x1] zero_1x1 1 0 (fun _ => 1)
      = (tr0 ++ [Warn 0 1; QrReorder; QrOrient], Ok (Q, R, P)) /\
      shape0 Q = 1%nat /\ shape1 Q = 0%nat /\
      shape0 R = 0%nat /\ shape1 R = 0%nat /\
      List.length P = 0%nat.
Proof.
  eexists. eexists.
  assert (Hd : (0 <> 1)%nat) by discriminate.
  assert (Hs : (0 < 1)%nat) by constructor.
  split; [exact Hd |]. split; [exact Hs |].
  match goal with
  | |- ?A /\ ?B /\ _ => assert (Hr : A); [| assert (Hg : B)]
  end.
  - apply reaches_setup. reflexivity.
  - unfold max_gain, compute_gains, mdot, shapes_aligned. simpl.
    unfold gain_value, vbroadcast2. simpl. unfold gain_at. simpl.
    do 2 f_equal. unfold get. simpl. ring.
  - split; [exact Hr |]. split; [exact Hg |].
    exact (mkl_qr_zero_gain_stops chol_zero (fun _ _ _ _ _ _ => qr_zero)
             (fun _ _ _ _ => qr_zero) (fun _ _ _ => qr_zero) (fun _ _ => 0)
             [zero_1x1] zero_1x1 1 (fun _ => 1) 0 1 0 _ _ Hd Hs Hr Hg).
Defined.

(** ** [mkl_lars] *)

Lemma sum_squares_nonneg (v : vector) :
  0 <= fold_right (fun x acc => x * x + acc) 0 v.
Proof. induction v as [| x v IH]; simpl; [lra | nra]. Qed.

Lemma norm_vec_sq (v : vector) :
  norm_vec v ^ 2 = fold_right (fun x acc => x * x + acc) 0 v.
Proof.
  unfold norm_vec. simpl. rewrite Rmult_1_r.
  apply sqrt_sqrt. apply sum_squares_nonneg.
Qed.

Ltac eval_arrays :=
  repeat (progress (unfold get, transpose, tabulate; simpl)).

Lemma eye2_orthonormal : orthonormal_cols eye2.
Proof.
  intros a b Ha Hb. simpl in Ha, Hb.
  destruct a as [| [| a]]; [| | lia]; destruct b as [| [| b]]; try lia;
    unfold kron, get; simpl; ring.
Qed.

Lemma eye3_orthonormal : orthonormal_cols eye3.
Proof.
  intros a b Ha Hb. simpl in Ha, Hb.
  destruct a as [| [| [| a]]]; [| | | lia]; destruct b as [| [| [| b]]]; try lia;
    unfold kron, get; simpl; ring.
Qed.



Lemma step_fraction_finite (c1 c2 : R) :
  0 < c1 -> 0 <= c2 -> exists a, step_fraction c1 c2 = Finite a.
Proof.
  intros H1 H2. unfold step_fraction.
  rewrite np_divide_nonzero by lra.
  unfold np_sqrt. destruct (Rlt_dec (c2 / c1) 0) as [L | _].
  - exfalso. apply (Rlt_not_le _ _ L). apply Rle_mult_inv_pos; assumption.
  - eexists. reflexivity.
Qed.

Lemma group_cost_ones (k : nat) :
  (k < 2)%nat ->
  group_cost eye3 [0; 1; 2]%nat (fun _ => 1) k (ravel ones_3x1) = Ok 1.
Proof.
  intros Hk. destruct k as [| [| k]]; [| | lia];
    unfold group_cost; simpl; unfold matvec; simpl bind; cbv beta;
    change (?a * (?a * 1)) with (a ^ 2); rewrite norm_vec_sq;
    eval_arrays; f_equal; ring.
Qed.

(** With three kernel groups the first pass already fails: the path row
    has as many entries as [Q] has columns, while [Q[:, :t]] has only the
    columns of the first two groups, so [Q[:, :t].dot(path[i])] raises a
    ValueError.  Here Q = I (3 x 3), P = [0, 1, 2], y = (1, 1, 1) and
    f = 1, for which the check c2 <= c1 passes with c1 = c2 = 1. *)
Lemma mkl_lars_three_groups_raise :
  orthonormal_cols eye3 /\
  mkl_lars eye3 [0; 1; 2]%nat ones_3x1 (fun _ => 1) = Raise not_aligned.
Proof.
  split; [exact eye3_orthonormal |].
  unfold mkl_lars. change (korder_of [0; 1; 2]%nat) with [0; 1; 2]%nat.
  cbn [combine tl lars_loop]. unfold lars_iter. cbn [r t path mu].
  rewrite !group_cost_ones by lia. cbn [bind].
  destruct (Rle_dec 1 1) as [_ | N]; [| exfalso; lra].
  destruct (step_fraction_finite 1 1) as [a ->]; [lra | lra |].
  reflexivity.
Qed.

(** *** The order of the kernel groups *)

Lemma insert_by_perm (key : nat -> nat) (x : nat) (l : list nat) :
  Permutation (insert_by key x l) (x :: l).
Proof.
  induction l as [| h l IH]; simpl.
  - apply Permutation_refl.
  - destruct (key x <? key h)%nat.
    + apply Permutation_refl.
    + apply Permutation_trans with (h :: x :: l).
      * apply perm_skip. exact IH.
      * apply perm_swap.
Qed.

Lemma sorted_by_perm (key : nat -> nat) (l : list nat) :
  Permutation (sorted_by key l) l.
Proof.
  unfold sorted_by.
  assert (G : forall l acc,
             Permutation (fold_left (fun acc x => insert_by key x acc) l acc)
                         (l ++ acc)).
  { clear l. induction l as [| x l IH]; intros acc; simpl.
    - apply Permutation_refl.
    - eapply Permutation_trans; [apply IH |].
      eapply Permutation_trans;
        [apply Permutation_app_head; apply insert_by_perm |].
      apply Permutation_sym. apply Permutation_middle. }
  specialize (G l []). rewrite app_nil_r in G. exact G.
Qed.

(** [korder] holds exactly the labels of [P], each once. *)
Lemma korder_In (P : list nat) (x : nat) : In x (korder_of P) <-> In x P.
Proof.
  unfold korder_of.
  set (key := fun p => argmax_bool (mask_eq P p)).
  pose proof (sorted_by_perm key (nodup Nat.eq_dec P)) as Hp.
  split; intros H.
  - apply (nodup_In Nat.eq_dec).
    apply (Permutation_in x Hp). exact H.
  - apply (Permutation_in x (Permutation_sym Hp)).
    apply (nodup_In Nat.eq_dec). exact H.
Qed.

Lemma korder_NoDup (P : list nat) : NoDup (korder_of P).
Proof.
  unfold korder_of.
  set (key := fun p => argmax_bool (mask_eq P p)).
  apply (Permutation_NoDup (Permutation_sym (sorted_by_perm key _))).
  apply NoDup_nodup.
Qed.

Lemma count_eq_cons (x : nat) (P : list nat) (k : nat) :
  count_eq (x :: P) k = ((if (k =? x)%nat then 1 else 0) + count_eq P k)%nat.
Proof. unfold count_eq, mask_eq. simpl. destruct (k =? x)%nat; reflexivity. Qed.

(** Two labels that cover [P] count all its entries. *)
Lemma count_eq_two (P : list nat) (k1 k2 : nat) :
  k1 <> k2 ->
  (forall x, In x P -> x = k1 \/ x = k2) ->
  (count_eq P k1 + count_eq P k2 = List.length P)%nat.
Proof.
  intros Hne. induction P as [| x P IH]; intros Hin.
  - reflexivity.
  - rewrite !count_eq_cons. simpl List.length.
    assert (IH' : (count_eq P k1 + count_eq P k2 = List.length P)%nat)
      by (apply IH; intros z Hz; apply Hin; right; exact Hz).
    destruct (Hin x (or_introl eq_refl)) as [-> | ->].
    + rewrite Nat.eqb_refl. destruct (Nat.eqb_spec k2 k1); [congruence | lia].
    + rewrite Nat.eqb_refl. destruct (Nat.eqb_spec k1 k2); [congruence | lia].
Qed.

(** *** Products with vectors *)

Lemma nth_map_in {A B : Type} (g : A -> B) (l : list A) (i : nat) (d : A) (d' : B) :
  (i < List.length l)%nat -> nth i (map g l) d' = g (nth i l d).
Proof.
  intros Hi. rewrite (nth_indep _ d' (g d)) by (rewrite length_map; exact Hi).
  apply map_nth.
Qed.

Lemma matvec_ok (A : matrix) (v : vector) :
  shape1 A = List.length v ->
  matvec A v
  = Ok (map (fun i => sum_n (shape1 A) (fun k => A.[i, k] * nth k v 0))
            (seq 0 (shape0 A))).
Proof. intros H. unfold matvec. rewrite H, Nat.eqb_refl. reflexivity. Qed.

Lemma vsub_length (u v : vector) : List.length (vsub u v) = List.length u.
Proof. unfold vsub. rewrite length_map, length_seq. reflexivity. Qed.

Lemma nth_vsub (u v : vector) (i : nat) :
  (i < List.length u)%nat -> nth i (vsub u v) 0 = nth i u 0 - nth i v 0.
Proof.
  intros Hi. unfold vsub.
  apply (nth_map_seq 0 (fun i => nth i u 0 - nth i v 0)). exact Hi.
Qed.


Lemma norm_vec_zeros (v : vector) : (forall a, nth a v 0 = 0) -> norm_vec v = 0.
Proof.
  intros Hz. unfold norm_vec.
  assert (E : fold_right (fun x acc => x * x + acc) 0 v = 0).
  { induction v as [| x v IH]; simpl; [reflexivity |].
    rewrite IH by (intros a; apply (Hz (S a))).
    pose proof (Hz O) as H0. simpl in H0. rewrite H0. ring. }
  rewrite E. apply sqrt_0.
Qed.

(** After the projection on orthonormal columns is removed, nothing of
    the residual is left along any column. *)
Lemma residual_orthogonal (n m : nat) (q : nat -> nat -> R) (rv : nat -> R)
    (a : nat) :
  (forall a b, (a < m)%nat -> (b < m)%nat ->
     sum_n n (fun i => q i a * q i b) = kron a b) ->
  (a < m)%nat ->
  sum_n n (fun i =>
    q i a * (rv i - sum_n m (fun b => q i b * sum_n n (fun j => q j b * rv j))))
  = 0.
Proof.
  intros Ho Ha.
  set (c := fun b => sum_n n (fun j => q j b * rv j)).
  rewrite (sum_n_ext n _
             (fun i => q i a * rv i - sum_n m (fun b => q i a * q i b * c b))).
  - rewrite sum_n_minus. fold (c a).
    rewrite sum_n_swap.
    rewrite (sum_n_ext m _ (fun b => kron a b * c b)).
    + rewrite sum_n_kron_l by exact Ha. ring.
    + intros b Hb. rewrite sum_n_scal_r. rewrite Ho by assumption. reflexivity.
  - intros i _. rewrite Rmult_minus_distr_l. f_equal.
    rewrite <- sum_n_scal_l. apply sum_n_ext. intros b _. unfold c. ring.
Qed.

(** *** The final jump of [mkl_lars] *)

Lemma lars_finish_exact (Q : matrix) (st : lars_state) :
  orthonormal_cols Q -> List.length (r st) = shape0 Q ->
  exists st' d z,
    lars_finish Q st = Ok st' /\
    List.length d = shape0 Q /\
    List.length (path st') = List.length (path st) /\
    r st' = vsub (r st) d /\
    mu st' = Some (mu_add (mu st) d) /\
    matvec (transpose Q) (r st') = Ok z /\
    (forall a, nth a z 0 = 0) /\ norm_vec z < 1 / 1000.
Proof.
  intros Ho Hr. unfold lars_finish.
  rewrite (matvec_ok (transpose Q) (r st)) by (simpl; symmetry; exact Hr).
  cbn [bind].
  change (shape1 (transpose Q)) with (shape0 Q).
  change (shape0 (transpose Q)) with (shape1 Q).
  set (QTr := map (fun i => sum_n (shape0 Q)
                     (fun k => (transpose Q).[i, k] * nth k (r st) 0))
                  (seq 0 (shape1 Q))).
  assert (HQ : List.length QTr = shape1 Q)
    by (unfold QTr; rewrite length_map, length_seq; reflexivity).
  rewrite (matvec_ok Q QTr) by (symmetry; exact HQ). cbn [bind].
  set (d := map (fun i => sum_n (shape1 Q) (fun k => Q.[i, k] * nth k QTr 0))
                (seq 0 (shape0 Q))).
  assert (Hd : List.length d = shape0 Q)
    by (unfold d; rewrite length_map, length_seq; reflexivity).
  assert (Hl : List.length (vsub (r st) d) = shape0 Q)
    by (rewrite vsub_length; exact Hr).
  assert (Hm : matvec (transpose Q) (vsub (r st) d)
               = Ok (map (fun i => sum_n (shape0 Q)
                            (fun k => (transpose Q).[i, k]
                                      * nth k (vsub (r st) d) 0))
                         (seq 0 (shape1 Q))))
    by (apply matvec_ok; simpl; symmetry; exact Hl).
  rewrite Hm. cbn [bind].
  set (z := map (fun i => sum_n (shape0 Q)
                   (fun k => (transpose Q).[i, k] * nth k (vsub (r st) d) 0))
                (seq 0 (shape1 Q))) in *.
  assert (Hz : forall a, nth a z 0 = 0).
  { intros a. destruct (Nat.lt_ge_cases a (shape1 Q)) as [Ha | Ha].
    - unfold z.
      rewrite (nth_map_seq 0
                 (fun i => sum_n (shape0 Q)
                    (fun k => (transpose Q).[i, k] * nth k (vsub (r st) d) 0)))
        by exact Ha.
      etransitivity;
        [| exact (residual_orthogonal (shape0 Q) (shape1 Q) (get 0 Q)
                    (fun i => nth i (r st) 0) a Ho Ha)].
      apply sum_n_ext. intros i Hi.
      rewrite get_transpose by assumption.
      rewrite nth_vsub by (rewrite Hr; exact Hi).
      f_equal. f_equal. unfold d.
      rewrite (nth_map_seq 0
                 (fun i => sum_n (shape1 Q) (fun k => Q.[i, k] * nth k QTr 0)))
        by exact Hi.
      apply sum_n_ext. intros b Hb. f_equal. unfold QTr.
      rewrite (nth_map_seq 0
                 (fun i => sum_n (shape0 Q)
                    (fun k => (transpose Q).[i, k] * nth k (r st) 0)))
        by exact Hb.
      apply sum_n_ext. intros j Hj.
      rewrite get_transpose by assumption. reflexivity.
    - apply nth_overflow. unfold z. rewrite length_map, length_seq. exact Ha. }
  pose proof (norm_vec_zeros z Hz) as Hn.
  destruct (Rlt_dec (norm_vec z) (1 / 1000)) as [Hlt | Hge]; [| exfalso; lra].
  eexists. exists d, z. split; [reflexivity |]. cbn [path r mu].
  repeat split; try assumption. apply set_nth_length.
Qed.

Lemma group_cost_nonneg (Q : matrix) (P : list nat) (f : nat -> R)
    (k : nat) (v : vector) (c : R) :
  (forall p, 0 < f p) -> group_cost Q P f k v = Ok c -> 0 <= c.
Proof.
  intros Hf. unfold group_cost.
  destruct (mask_cols (mask_eq P k) Q) as [Qk | e]; cbn [bind];
    [| intros H; discriminate H].
  destruct (matvec (transpose Qk) v) as [u | e]; cbn [bind];
    [| intros H; discriminate H].
  intros H. injection H as <-.
  apply Rmult_le_pos; [apply pow2_ge_0 | apply Rlt_le; apply Hf].
Qed.




Lemma group_cost_col_2_1 :
  group_cost eye2 [0; 1]%nat (fun _ => 1) 0 (ravel col_2_1) = Ok 4 /\
  group_cost eye2 [0; 1]%nat (fun _ => 1) 1 (ravel col_2_1) = Ok 1.
Proof.
  split;
    unfold group_cost; simpl; unfold matvec; simpl bind; cbv beta;
    change (?a * (?a * 1)) with (a ^ 2); rewrite norm_vec_sq;
    eval_arrays; f_equal; ring.
Qed.


(* ================================================================= *)
(** * Part III. Further properties of the two modules *)
(* ================================================================= *)

(** ** Gram matrices *)

Lemma sum_n_nonneg (n : nat) (g : nat -> R) :
  (forall k, (k < n)%nat -> 0 <= g k) -> 0 <= sum_n n g.
Proof.
  induction n as [| n IH]; intros H; simpl.
  - lra.
  - pose proof (H n (Nat.lt_succ_diag_r n)).
    assert (0 <= sum_n n g) by (apply IH; intros k Hk; apply H; lia). lra.
Qed.

(** The quadratic form of a Gram matrix is a sum of squares. *)
Lemma gram_quadratic_form (n d : nat) (a : nat -> nat -> R) (v : nat -> R) :
  sum_n n (fun p => sum_n n (fun q =>
    v p * sum_n d (fun k => a p k * a q k) * v q))
  = sum_n d (fun k => sum_n n (fun p => v p * a p k) ^ 2).
Proof.
  rewrite (sum_n_ext n _
             (fun p => sum_n d (fun k =>
                (v p * a p k) * sum_n n (fun q => v q * a q k)))).
  - rewrite sum_n_swap. apply sum_n_ext. intros k _.
    rewrite sum_n_scal_r. simpl. ring.
  - intros p _.
    rewrite (sum_n_ext n _
               (fun q => sum_n d (fun k => v p * a p k * (v q * a q k)))).
    + rewrite sum_n_swap. apply sum_n_ext. intros k _.
      apply sum_n_scal_l.
    + intros q _. rewrite Rmult_comm, <- sum_n_scal_l, <- sum_n_scal_l.
      apply sum_n_ext. intros k _. ring.
Qed.

Lemma gram_psd (K : matrix) (n d : nat) (a : nat -> nat -> R) :
  shape0 K = n -> shape1 K = n ->
  (forall p q, (p < n)%nat -> (q < n)%nat ->
     K.[p, q] = sum_n d (fun k => a p k * a q k)) ->
  psd K n.
Proof.
  intros H0 H1 HK. repeat split; try assumption.
  - intros i j Hi Hj. rewrite !HK by assumption.
    apply sum_n_ext. intros k _. ring.
  - intros v. unfold quad.
    rewrite (sum_n_ext n _
               (fun p => sum_n n (fun q =>
                  v p * sum_n d (fun k => a p k * a q k) * v q))).
    + rewrite gram_quadratic_form. apply sum_n_nonneg.
      intros k _. apply pow2_ge_0.
    + intros p Hp. apply sum_n_ext. intros q Hq. rewrite HK by assumption.
      reflexivity.
Qed.

(** ** More on the linear, polynomial and sigmoid kernels *)

(** X1.  [linear_kernel(X, X)] of a dense data matrix is the Gram matrix
    X X^T: symmetric and positive semidefinite, one row and one column per
    sample. *)
Theorem linear_kernel_gram_psd (X : matrix) :
  exists K,
    linear_kernel (NdArray X) (NdArray X) = Ok (NdArray K) /\
    psd K (shape0 X).
Proof.
  exists (matmul X (transpose X)). split.
  - unfold linear_kernel. simpl. unfold shapes_aligned. simpl.
    rewrite Nat.eqb_refl. reflexivity.
  - apply (gram_psd _ (shape0 X) (shape1 X) (get 0 X)); try reflexivity.
    intros p q Hp Hq. rewrite get_matmul by (simpl; assumption).
    unfold mm. apply sum_n_ext. intros k Hk.
    rewrite get_transpose by assumption. reflexivity.
Qed.

(** X2.  Dense inputs with different numbers of features make the three
    dot-product kernels raise the ValueError of [dot]. *)
Theorem dot_kernels_feature_mismatch (X Y : matrix) (p : nat) (b c : R) :
  shape1 X <> shape1 Y ->
  linear_kernel (NdArray X) (NdArray Y) = Raise not_aligned /\
  poly_kernel (NdArray X) (NdArray Y) p b = Raise not_aligned /\
  sigmoid_kernel (NdArray X) (NdArray Y) b c = Raise not_aligned.
Proof.
  intros H.
  assert (E : dot_T (NdArray X) (NdArray Y) = Raise not_aligned).
  { unfold dot_T. simpl. unfold shapes_aligned. simpl.
    destruct (Nat.eqb_spec (shape1 X) (shape1 Y)); [contradiction | reflexivity]. }
  unfold linear_kernel, poly_kernel, sigmoid_kernel.
  cbn [isinstance_int isspmatrix hasattr_shape negb andb bind].
  rewrite E. auto.
Qed.

Lemma dot_kernels_feature_mismatch_witness :
  shape1 (mk_ndarray 1 1 [[1]]) <> shape1 (mk_ndarray 1 2 [[1; 2]]) /\
  linear_kernel (NdArray (mk_ndarray 1 1 [[1]])) (NdArray (mk_ndarray 1 2 [[1; 2]]))
  = Raise not_aligned.
Proof.
  assert (H : shape1 (mk_ndarray 1 1 [[1]]) <> shape1 (mk_ndarray 1 2 [[1; 2]]))
    by (simpl; discriminate).
  split; [exact H |].
  exact (proj1 (dot_kernels_feature_mismatch (mk_ndarray 1 1 [[1]])
                  (mk_ndarray 1 2 [[1; 2]]) 2 0 0 H)).
Defined.

(** X3.  Except on a Python float, where [linear_kernel] raises,
    [poly_kernel(x, y, p, b)] is [linear_kernel(x, y) ** p], whatever [b]
    is. *)
Theorem poly_kernel_is_power_of_linear (x y : pyval) (p : nat) (b : R) :
  (forall a, x <> Num (PyFloat a)) ->
  poly_kernel x y p b = (v <- linear_kernel x y ;; py_pow v p).
Proof.
  intros Hx. destruct x as [[m | a] | a | X | X].
  - reflexivity.
  - exfalso. apply (Hx a). reflexivity.
  - reflexivity.
  - reflexivity.
  - unfold poly_kernel, linear_kernel.
    cbn [isinstance_int isspmatrix hasattr_shape negb andb].
    destruct (dot_T (SpMatrix X) y) as [d | e]; cbn [bind]; [| reflexivity].
    destruct (todense d); reflexivity.
Qed.

Lemma poly_kernel_is_power_of_linear_witness :
  (forall a, Num (PyInt 3) <> Num (PyFloat a)) /\
  poly_kernel (Num (PyInt 3)) (Num (PyInt 2)) 2 5
  = (v <- linear_kernel (Num (PyInt 3)) (Num (PyInt 2)) ;; py_pow v 2).
Proof.
  assert (H : forall a, Num (PyInt 3) <> Num (PyFloat a)) by (intros a; discriminate).
  split; [exact H |].
  exact (poly_kernel_is_power_of_linear (Num (PyInt 3)) (Num (PyInt 2)) 2 5 H).
Defined.

Lemma tanh_bounds (x : R) : -1 < tanh x < 1.
Proof.
  unfold tanh, sinh, cosh.
  pose proof (exp_pos x) as P. pose proof (exp_pos (Ropp x)) as N.
  assert (C : 0 < (exp x + exp (Ropp x)) / 2) by lra.
  split.
  - apply (Rmult_lt_reg_r ((exp x + exp (Ropp x)) / 2)); [exact C |].
    unfold Rdiv at 2. rewrite Rmult_assoc, Rinv_l by lra. lra.
  - apply (Rmult_lt_reg_r ((exp x + exp (Ropp x)) / 2)); [exact C |].
    unfold Rdiv at 1. rewrite Rmult_assoc, Rinv_l by lra. lra.
Qed.

(** X4.  Every entry of a sigmoid kernel matrix lies between -1 and 1. *)
Theorem sigmoid_kernel_entries_bounded (X Y : matrix) (b c : R) :
  shape1 X = shape1 Y ->
  exists K,
    sigmoid_kernel (NdArray X) (NdArray Y) b c = Ok (NdArray K) /\
    shape0 K = shape0 X /\ shape1 K = shape0 Y /\
    forall i j, (i < shape0 X)%nat -> (j < shape0 Y)%nat -> -1 <= K.[i, j] <= 1.
Proof.
  intros H. eexists. split; [apply sigmoid_kernel_dense; exact H |].
  split; [reflexivity |]. split; [reflexivity |].
  intros i j Hi Hj.
  assert (E : forall A, shape0 A = shape0 X -> shape1 A = shape0 Y ->
                (amap tanh A).[i, j] = tanh A.[i, j]).
  { intros A E0 E1. unfold amap. rewrite get_tabulate by lia. reflexivity. }
  rewrite E by reflexivity.
  match goal with |- _ <= tanh ?u <= _ => pose proof (tanh_bounds u) end. lra.
Qed.

Lemma sigmoid_kernel_entries_bounded_witness :
  shape1 (mk_ndarray 1 1 [[3]]) = shape1 (mk_ndarray 1 1 [[2]]) /\
  exists K,
    sigmoid_kernel (NdArray (mk_ndarray 1 1 [[3]])) (NdArray (mk_ndarray 1 1 [[2]])) 1 0
    = Ok (NdArray K) /\ -1 <= K.[0, 0] <= 1.
Proof.
  split; [reflexivity |].
  destruct (sigmoid_kernel_entries_bounded (mk_ndarray 1 1 [[3]])
              (mk_ndarray 1 1 [[2]]) 1 0 eq_refl) as [K [E [_ [_ HK]]]].
  exists K. split; [exact E |].
  apply HK; simpl; apply Nat.lt_0_succ.
Defined.

(** ** More on [center_kernel] and [center_kernel_low_rank] *)

(** A row of the centering matrix sums to zero. *)
Lemma cen_row_sum (n l : nat) : (l < n)%nat -> sum_n n (fun j => cen n l j) = 0.
Proof.
  intros Hl. unfold cen.
  rewrite (sum_n_ext n _ (fun j => kron l j * 1 - 1 / INR n))
    by (intros; ring).
  rewrite sum_n_minus, sum_n_const, sum_n_kron_l by exact Hl.
  assert (INR n <> 0) by (apply not_0_INR; lia). field. assumption.
Qed.

Lemma cen_col_sum (n l : nat) : (l < n)%nat -> sum_n n (fun i => cen n i l) = 0.
Proof.
  intros Hl. rewrite <- (cen_row_sum n l Hl) at 1.
  apply sum_n_ext. intros i _. apply cen_sym.
Qed.

(** Products with the centering matrix have zero column sums on the left
    and zero row sums on the right. *)
Lemma mm_cen_l_col_sum (n : nat) (g : nat -> nat -> R) (j : nat) :
  sum_n n (fun i => mm n (cen n) g i j) = 0.
Proof.
  unfold mm. rewrite sum_n_swap.
  rewrite (sum_n_ext n _ (fun _ => 0)); [apply sum_n_zero |].
  intros l Hl. rewrite sum_n_scal_r, cen_col_sum by exact Hl. ring.
Qed.









(** X15.  The columns of a low-rank centered feature matrix sum to zero, and
    centering it again returns it unchanged. *)
Theorem center_kernel_low_rank_centered (G : matrix) :
  exists Gc,
    center_kernel_low_rank G = Ok Gc /\
    (forall j, (j < shape1 G)%nat -> sum_n (shape0 G) (fun i => Gc.[i, j]) = 0) /\
    center_kernel_low_rank Gc = Ok Gc.
Proof.
  eexists. split; [apply center_kernel_low_rank_entries |].
  set (n := shape0 G). set (k := shape1 G). split.
  - intros j Hj.
    rewrite (sum_n_ext n _ (fun i => mm n (cen n) (get 0 G) i j))
      by (intros i Hi; apply get_tabulate; assumption).
    apply mm_cen_l_col_sum.
  - rewrite center_kernel_low_rank_entries. simpl. fold n. fold k.
    apply f_equal.
    apply tabulate_ext. intros i j Hi Hj.
    transitivity (mm n (cen n) (mm n (cen n) (get 0 G)) i j).
    + apply mm_ext; [reflexivity |]. intros l Hl.
      apply get_tabulate; assumption.
    + rewrite <- mm_assoc. apply mm_ext; [| reflexivity].
      intros l Hl. apply cen_idem; assumption.
Qed.

(** ** More on [kernel_row_normalize] *)

Lemma np_divide_sqrt_scale (a x u v : R) :
  0 < a ->
  np_divide (a * x) (np_sqrt (a * u * (a * v))) = np_divide x (np_sqrt (u * v)).
Proof.
  intros Ha. unfold np_sqrt.
  assert (Haa : 0 < a * a) by (apply Rmult_lt_0_compat; assumption).
  replace (a * u * (a * v)) with (a * a * (u * v)) by ring.
  destruct (Rlt_dec (a * a * (u * v)) 0) as [L | L];
    destruct (Rlt_dec (u * v) 0) as [L' | L']; try reflexivity.
  - exfalso. apply L'. apply Rnot_le_lt. intros Hc.
    assert (0 <= a * a * (u * v)) by (apply Rmult_le_pos; lra). lra.
  - exfalso. apply L.
    assert (0 < a * a * (- (u * v))) by (apply Rmult_lt_0_compat; lra). lra.
  - assert (Huv : 0 <= u * v) by lra.
    rewrite sqrt_mult by lra. rewrite sqrt_square by lra.
    pose proof (sqrt_pos (u * v)) as Hs.
    set (s := sqrt (u * v)) in *. unfold np_divide.
    destruct (Req_EM_T (a * s) 0) as [E | E]; destruct (Req_EM_T s 0) as [E' | E'].
    + destruct (Req_EM_T (a * x) 0) as [Z | Z]; destruct (Req_EM_T x 0) as [Z' | Z'];
        try reflexivity; try (exfalso; nra).
      destruct (Rlt_dec 0 (a * x)); destruct (Rlt_dec 0 x);
        try reflexivity; exfalso; nra.
    + exfalso. nra.
    + exfalso. subst s. rewrite E' in E. apply E. ring.
    + f_equal. field. split; lra.
Qed.

(** X16.  Multiplying a square kernel by a positive number does not change its
    row normalization. *)
Theorem kernel_row_normalize_scale_invariant (K : matrix) (a : R) :
  shape0 K = shape1 K -> 0 < a ->
  kernel_row_normalize (scale a K) = kernel_row_normalize K.
Proof.
  intros Hsq Ha.
  rewrite (kernel_row_normalize_entries (scale a K) (shape0 K))
    by (simpl; congruence).
  rewrite (kernel_row_normalize_entries K (shape0 K)) by congruence.
  f_equal. apply tabulate_ext. intros i j Hi Hj.
  unfold scale, amap. rewrite !get_tabulate by (rewrite <- ?Hsq; assumption).
  apply np_divide_sqrt_scale. exact Ha.
Qed.

Lemma kernel_row_normalize_scale_invariant_witness :
  let K := mk_ndarray 1 1 [[4]] in
  shape0 K = shape1 K /\ 0 < 3 /\
  kernel_row_normalize (scale 3 K) = kernel_row_normalize K.
Proof.
  assert (H : 0 < 3) by lra.
  split; [reflexivity |]. split; [exact H |].
  exact (kernel_row_normalize_scale_invariant (mk_ndarray 1 1 [[4]]) 3 eq_refl H).
Defined.

(** X17.  A matrix with at least two rows that is not square makes
    [kernel_row_normalize] raise a ValueError: from [reshape] when it has
    more rows than columns, from the division otherwise. *)
Theorem kernel_row_normalize_not_square_raises (K : matrix) :
  (2 <= shape0 K)%nat -> shape0 K <> shape1 K ->
  exists msg, kernel_row_normalize K = Raise (ValueError msg).
Proof.
  intros H2 Hne. unfold kernel_row_normalize, reshape_col, np_diag.
  rewrite length_map, length_seq.
  destruct (Nat.eqb_spec (Nat.min (shape0 K) (shape1 K)) (shape0 K)) as [E | E].
  - cbn [bind]. unfold mdot, shapes_aligned. simpl.
    unfold broadcast2. simpl. rewrite broadcast_dim_same.
    unfold broadcast_dim.
    destruct (Nat.eqb_spec (shape1 K) (shape0 K)) as [E1 | _]; [congruence |].
    destruct (Nat.eqb_spec (shape1 K) 1) as [E2 | _]; [lia |].
    destruct (Nat.eqb_spec (shape0 K) 1) as [E3 | _]; [lia |].
    eexists. reflexivity.
  - eexists. reflexivity.
Qed.

Lemma kernel_row_normalize_not_square_raises_witness :
  let K := mk_ndarray 2 1 [[1]; [2]] in
  (2 <= shape0 K)%nat /\ shape0 K <> shape1 K /\
  exists msg, kernel_row_normalize K = Raise (ValueError msg).
Proof.
  assert (H2 : (2 <= shape0 (mk_ndarray 2 1 [[1]; [2]]))%nat) by apply le_n.
  assert (Hne : shape0 (mk_ndarray 2 1 [[1]; [2]]) <> shape1 (mk_ndarray 2 1 [[1]; [2]]))
    by (simpl; discriminate).
  split; [exact H2 |]. split; [exact Hne |].
  exact (kernel_row_normalize_not_square_raises (mk_ndarray 2 1 [[1]; [2]]) H2 Hne).
Defined.

(** ** The exponential kernel *)

Lemma map_result_ok {A B : Type} (g : A -> result B) (h : A -> B) (l : list A) :
  (forall a, In a l -> g a = Ok (h a)) -> map_result g l = Ok (map h l).
Proof.
  induction l as [| a l IH]; intros H; simpl.
  - reflexivity.
  - rewrite (H a (or_introl eq_refl)). simpl.
    rewrite IH by (intros b Hb; apply H; right; exact Hb). reflexivity.
Qed.

Lemma pairwise_ok {T : Type} (g : vector -> vector -> result T)
    (h : nat -> nat -> T) (X Y : matrix) :
  (forall i j, (i < shape0 X)%nat -> (j < shape0 Y)%nat ->
     g (row_of X i) (row_of Y j) = Ok (h i j)) ->
  pairwise g X Y = Ok (tabulate (shape0 X) (shape0 Y) h).
Proof.
  intros H. unfold pairwise.
  rewrite (map_result_ok _ (fun i => map (h i) (seq 0 (shape0 Y)))).
  - reflexivity.
  - intros i Hi. apply in_seq in Hi.
    apply map_result_ok. intros j Hj. apply in_seq in Hj. apply H; lia.
Qed.

Lemma row_distance_rows (X Y : matrix) (i j : nat) :
  shape1 X = shape1 Y ->
  row_distance (row_of X i) (row_of Y j) = Ok (norm_vec (row_diff X Y i j)).
Proof.
  intros H. unfold row_distance, vbroadcast2, row_of.
  rewrite !length_map, !length_seq, <- H, broadcast_dim_same. cbn [bind].
  do 2 f_equal. unfold row_diff. apply map_ext_in. intros k Hk.
  apply in_seq in Hk. rewrite bidx_in_range by lia.
  rewrite (nth_map_seq 0 (fun k => X.[i, k])) by lia.
  rewrite H in Hk. rewrite (nth_map_seq 0 (fun k => Y.[j, k])) by lia.
  reflexivity.
Qed.

Lemma norm_vec_map_sq (g h : nat -> R) (l : list nat) :
  (forall k, In k l -> g k * g k = h k * h k) ->
  norm_vec (map g l) = norm_vec (map h l).
Proof.
  intros H. unfold norm_vec. f_equal.
  induction l as [| k l IH]; simpl; [reflexivity |].
  rewrite (H k (or_introl eq_refl)).
  rewrite IH by (intros q Hq; apply H; right; exact Hq). reflexivity.
Qed.

Lemma row_diff_sym (X : matrix) (i j : nat) :
  norm_vec (row_diff X X i j) = norm_vec (row_diff X X j i).
Proof. unfold row_diff. apply norm_vec_map_sq. intros k _. ring. Qed.

Lemma row_diff_self (X : matrix) (i : nat) : norm_vec (row_diff X X i i) = 0.
Proof.
  apply norm_vec_zeros. intros a. unfold row_diff.
  destruct (Nat.lt_ge_cases a (shape1 X)) as [Ha | Ha].
  - rewrite (nth_map_seq 0 (fun k => X.[i, k] - X.[i, k])) by exact Ha. ring.
  - apply nth_overflow. rewrite length_map, length_seq. exact Ha.
Qed.

(** The batch branch on two dense arrays with the same number of
    features. *)
Lemma exponential_body_dense (X Y : matrix) (gamma : R) :
  shape1 X = shape1 Y ->
  exponential_body (NdArray X) (NdArray Y) gamma
  = Ok (NdArray (tabulate (shape0 X) (shape0 Y)
                   (fun i j => exp (- gamma * norm_vec (row_diff X Y i j) ^ 2)))).
Proof.
  intros H. unfold exponential_body. cbn [densify_both isspmatrix andb bind].
  rewrite (pairwise_ok _
             (fun i j => exp (- gamma * norm_vec (row_diff X Y i j) ^ 2))).
  - reflexivity.
  - intros i j _ _. rewrite row_distance_rows by exact H. reflexivity.
Qed.

Lemma exponential_kernel_body (x y : pyval) (sigma : R) (gamma : option R) :
  (gamma = None -> sigma <> 0) ->
  exponential_kernel x y sigma gamma
  = Returned (exponential_body x y (gamma_of sigma gamma)).
Proof.
  intros H. unfold exponential_kernel, gamma_of. destruct gamma as [g |].
  - reflexivity.
  - destruct (Req_EM_T (2 * sigma ^ 2) 0) as [E | _]; [| reflexivity].
    exfalso. apply (H eq_refl).
    assert (E2 : sigma ^ 2 = 0) by lra.
    simpl in E2. rewrite Rmult_1_r in E2.
    destruct (Rmult_integral _ _ E2); assumption.
Qed.

(** X6.  [exponential_kernel(X, X)] of a dense data matrix has ones on its
    diagonal and is symmetric. *)
Theorem exponential_kernel_self (X : matrix) (sigma : R) (gamma : option R) :
  (gamma = None -> sigma <> 0) ->
  exists K,
    exponential_kernel (NdArray X) (NdArray X) sigma gamma
    = Returned (Ok (NdArray K)) /\
    shape0 K = shape0 X /\ shape1 K = shape0 X /\
    (forall i, (i < shape0 X)%nat -> K.[i, i] = 1) /\
    (forall i j, (i < shape0 X)%nat -> (j < shape0 X)%nat -> K.[i, j] = K.[j, i]).
Proof.
  intros H. eexists. split.
  - rewrite exponential_kernel_body by exact H.
    rewrite exponential_body_dense by reflexivity. reflexivity.
  - split; [reflexivity |]. split; [reflexivity |]. split.
    + intros i Hi. rewrite get_tabulate by assumption.
      rewrite row_diff_self. replace (- gamma_of sigma gamma * 0 ^ 2) with 0 by ring.
      apply exp_0.
    + intros i j Hi Hj. rewrite !get_tabulate by assumption.
      rewrite (row_diff_sym X i j). reflexivity.
Qed.

Lemma exponential_kernel_self_witness :
  let X := mk_ndarray 2 1 [[0]; [3]] in
  ((None : option R) = None -> 2 <> 0) /\
  exists K,
    exponential_kernel (NdArray X) (NdArray X) 2 None = Returned (Ok (NdArray K)) /\
    K.[0, 0] = 1 /\ K.[0, 1] = K.[1, 0].
Proof.
  assert (H : (None : option R) = None -> 2 <> 0) by (intros _; lra).
  split; [exact H |].
  destruct (exponential_kernel_self (mk_ndarray 2 1 [[0]; [3]]) 2 None H)
    as [K [E [_ [_ [Hd Hs]]]]].
  exists K. split; [exact E |]. split.
  - apply Hd. simpl. lia.
  - apply Hs; simpl; lia.
Defined.

Lemma exp_nonpos_le_1 (x : R) : x <= 0 -> 0 < exp x <= 1.
Proof.
  intros Hx. split; [apply exp_pos |].
  destruct (Rle_lt_or_eq_dec x 0 Hx) as [L | ->].
  - rewrite <- exp_0. apply Rlt_le. apply exp_increasing. exact L.
  - rewrite exp_0. lra.
Qed.

(** X7.  With [gamma >= 0] every entry of an exponential kernel matrix lies
    in [0, 1]. *)
Theorem exponential_kernel_range (X Y : matrix) (sigma : R) (gamma : option R) :
  shape1 X = shape1 Y ->
  (gamma = None -> sigma <> 0) ->
  0 <= gamma_of sigma gamma ->
  exists K,
    exponential_kernel (NdArray X) (NdArray Y) sigma gamma
    = Returned (Ok (NdArray K)) /\
    shape0 K = shape0 X /\ shape1 K = shape0 Y /\
    forall i j, (i < shape0 X)%nat -> (j < shape0 Y)%nat -> 0 <= K.[i, j] <= 1.
Proof.
  intros H Hs Hg. eexists. split.
  - rewrite exponential_kernel_body by exact Hs.
    rewrite exponential_body_dense by exact H. reflexivity.
  - split; [reflexivity |]. split; [reflexivity |].
    intros i j Hi Hj. rewrite get_tabulate by assumption.
    match goal with
    | |- _ <= exp ?u <= _ => cut (u <= 0);
        [intros Hu; pose proof (exp_nonpos_le_1 u Hu); lra |]
    end.
    pose proof (pow2_ge_0 (norm_vec (row_diff X Y i j))) as Hn.
    rewrite <- Ropp_mult_distr_l.
    apply Ropp_le_cancel. rewrite Ropp_involutive, Ropp_0.
    apply Rmult_le_pos; assumption.
Qed.

Lemma exponential_kernel_range_witness :
  let X := mk_ndarray 1 1 [[0]] in
  let Y := mk_ndarray 1 1 [[3]] in
  shape1 X = shape1 Y /\ (Some (1 / 2) = None -> 2 <> 0) /\
  0 <= gamma_of 2 (Some (1 / 2)) /\
  exists K,
    exponential_kernel (NdArray X) (NdArray Y) 2 (Some (1 / 2))
    = Returned (Ok (NdArray K)) /\ 0 <= K.[0, 0] <= 1.
Proof.
  assert (Hs : Some (1 / 2) = None -> 2 <> 0) by (intros _; lra).
  assert (Hg : 0 <= gamma_of 2 (Some (1 / 2))) by (simpl; lra).
  split; [reflexivity |]. split; [exact Hs |]. split; [exact Hg |].
  destruct (exponential_kernel_range (mk_ndarray 1 1 [[0]]) (mk_ndarray 1 1 [[3]])
              2 (Some (1 / 2)) eq_refl Hs Hg) as [K [E [_ [_ HK]]]].
  exists K. split; [exact E |]. apply HK; simpl; lia.
Defined.

(** X8.  When [gamma] is omitted it is 1/(2 sigma^2): the call raises
    ZeroDivisionError for [sigma = 0] whatever the data are, and for the
    default [sigma = 2.0] it is the call with [gamma = 0.125]. *)
Theorem exponential_kernel_default_gamma (x y : pyval) :
  exponential_kernel x y 0 None = ZeroDivisionError /\
  (forall sigma', exponential_kernel x y 2 None
                  = exponential_kernel x y sigma' (Some (125 / 1000))).
Proof.
  split.
  - unfold exponential_kernel.
    destruct (Req_EM_T (2 * 0 ^ 2) 0) as [_ | N]; [reflexivity |].
    exfalso. apply N. ring.
  - intros sigma'. unfold exponential_kernel.
    destruct (Req_EM_T (2 * 2 ^ 2) 0) as [E | _]; [exfalso; lra |].
    replace (1 / (2 * 2 ^ 2)) with (125 / 1000) by field. reflexivity.
Qed.

(** ** The periodic kernel *)





Lemma periodic_value_zero (sigma p l : R) :
  p <> 0 -> l <> 0 -> periodic_value sigma p l 0 = Finite (sigma ^ 2).
Proof.
  intros Hp Hl. unfold periodic_value.
  destruct (Req_EM_T p 0) as [E | _]; [contradiction |].
  rewrite np_divide_nonzero by (apply pow_nonzero; exact Hl).
  f_equal.
  replace (PI * 0 / p) with 0 by (unfold Rdiv; ring).
  rewrite sin_0.
  replace (- 2 * 0 ^ 2 / l ^ 2) with 0 by (unfold Rdiv; ring).
  rewrite exp_0. ring.
Qed.

(** For [p <> 0] and [l <> 0] the value is finite and lies in
    [0, sigma^2]. *)
Lemma periodic_value_range (sigma p l d : R) :
  p <> 0 -> l <> 0 ->
  exists v, periodic_value sigma p l d = Finite v /\ 0 <= v <= sigma ^ 2.
Proof.
  intros Hp Hl. unfold periodic_value.
  destruct (Req_EM_T p 0) as [E | _]; [contradiction |].
  rewrite np_divide_nonzero by (apply pow_nonzero; exact Hl).
  eexists. split; [reflexivity |].
  assert (Hx : - 2 * sin (PI * d / p) ^ 2 / l ^ 2 <= 0).
  { pose proof (pow2_ge_0 (sin (PI * d / p))) as Hs.
    assert (Hl2 : 0 < l ^ 2) by (simpl; nra).
    apply Rinv_0_lt_compat in Hl2. unfold Rdiv.
    assert (0 <= 2 * sin (PI * d / p) ^ 2 * / l ^ 2)
      by (apply Rmult_le_pos; lra).
    lra. }
  destruct (exp_nonpos_le_1 _ Hx) as [E0 E1].
  pose proof (pow2_ge_0 sigma) as Hs2.
  split; [apply Rmult_le_pos; lra |].
  rewrite <- (Rmult_1_r (sigma ^ 2)) at 2.
  apply Rmult_le_compat_l; assumption.
Qed.

Lemma periodic_kernel_dense_entries (X Y : matrix) (sigma p l : R) :
  shape1 X = shape1 Y ->
  periodic_kernel (NdArray X) (NdArray Y) sigma p l
  = Ok (FArray (tabulate (shape0 X) (shape0 Y)
                  (fun i j => periodic_value sigma p l
                                (norm_vec (row_diff X Y i j))))).
Proof.
  intros H. unfold periodic_kernel. cbn [densify_both isspmatrix andb bind].
  rewrite (pairwise_ok _
             (fun i j => periodic_value sigma p l (norm_vec (row_diff X Y i j)))).
  - reflexivity.
  - intros i j _ _. rewrite row_distance_rows by exact H. reflexivity.
Qed.

(** X10.  [periodic_kernel(X, X)] of a dense data matrix is symmetric; for
    [p <> 0] and [l <> 0] its diagonal is sigma^2 and every entry is a
    finite number in [0, sigma^2]. *)
Theorem periodic_kernel_self (X : matrix) (sigma p l : R) :
  exists K,
    periodic_kernel (NdArray X) (NdArray X) sigma p l = Ok (FArray K) /\
    shape0 K = shape0 X /\ shape1 K = shape0 X /\
    (forall i j, (i < shape0 X)%nat -> (j < shape0 X)%nat ->
       get NaN K i j = get NaN K j i) /\
    (p <> 0 -> l <> 0 ->
     forall i j, (i < shape0 X)%nat -> (j < shape0 X)%nat ->
       get NaN K i i = Finite (sigma ^ 2) /\
       exists v, get NaN K i j = Finite v /\ 0 <= v <= sigma ^ 2).
Proof.
  eexists. split; [apply periodic_kernel_dense_entries; reflexivity |].
  split; [reflexivity |]. split; [reflexivity |]. split.
  - intros i j Hi Hj. rewrite !get_tabulate by assumption.
    rewrite (row_diff_sym X i j). reflexivity.
  - intros Hp Hl i j Hi Hj. rewrite !get_tabulate by assumption. split.
    + rewrite row_diff_self. apply periodic_value_zero; assumption.
    + apply periodic_value_range; assumption.
Qed.

Lemma periodic_kernel_self_witness :
  exists K,
    periodic_kernel (NdArray eye2) (NdArray eye2) 2 1 1 = Ok (FArray K) /\
    get NaN K 0 0 = Finite (2 ^ 2).
Proof.
  destruct (periodic_kernel_self eye2 2 1 1) as [K [E [_ [_ [_ H]]]]].
  exists K. split; [exact E |].
  assert (H1 : 1 <> 0) by lra.
  assert (H2 : (0 < shape0 eye2)%nat) by (simpl; lia).
  exact (proj1 (H H1 H1 0%nat 0%nat H2 H2)).
Defined.

(** ** Sparse inputs *)

(** X5.  On two sparse matrices with the same number of features each of the
    five kernels returns the dense array that it returns on the dense
    arrays with the same entries. *)
Theorem sparse_kernels_agree_with_dense (X Y : matrix) (p : nat)
    (b c sigma sigma' per l : R) (gamma : option R) :
  shape1 X = shape1 Y ->
  linear_kernel (SpMatrix X) (SpMatrix Y)
  = linear_kernel (NdArray X) (NdArray Y) /\
  poly_kernel (SpMatrix X) (SpMatrix Y) p b
  = poly_kernel (NdArray X) (NdArray Y) p b /\
  sigmoid_kernel (SpMatrix X) (SpMatrix Y) b c
  = sigmoid_kernel (NdArray X) (NdArray Y) b c /\
  exponential_kernel (SpMatrix X) (SpMatrix Y) sigma gamma
  = exponential_kernel (NdArray X) (NdArray Y) sigma gamma /\
  periodic_kernel (SpMatrix X) (SpMatrix Y) sigma' per l
  = periodic_kernel (NdArray X) (NdArray Y) sigma' per l.
Proof.
  intros H.
  assert (Ha : shapes_aligned X (transpose Y) = true)
    by (unfold shapes_aligned; cbn [transpose shape0 tabulate];
        rewrite H; apply Nat.eqb_refl).
  split; [| split; [| split; [| split]]].
  - unfold linear_kernel, dot_T.
    cbn [isinstance_int isspmatrix getattr_T bind dot]. rewrite Ha. reflexivity.
  - unfold poly_kernel, dot_T.
    cbn [isspmatrix hasattr_shape negb getattr_T bind dot]. rewrite Ha.
    reflexivity.
  - reflexivity.
  - reflexivity.
  - reflexivity.
Qed.

Lemma sparse_kernels_agree_with_dense_witness :
  shape1 eye2 = shape1 eye2 /\
  linear_kernel (SpMatrix eye2) (SpMatrix eye2)
  = linear_kernel (NdArray eye2) (NdArray eye2).
Proof.
  split; [reflexivity |].
  exact (proj1 (sparse_kernels_agree_with_dense eye2 eye2 2 0 0 2 1 1 1 None
                  eq_refl)).
Defined.

(** ** The random kernel *)

(** X11.  Whatever numbers are drawn, [random_kernel(n)] returns a symmetric
    positive semidefinite [n] x [n] matrix. *)
Theorem random_kernel_psd (draw : nat -> nat -> R) (n : nat) :
  exists K, random_kernel draw n = Ok K /\ psd K n.
Proof.
  eexists. split.
  - unfold random_kernel, mdot, shapes_aligned. simpl.
    rewrite Nat.eqb_refl. reflexivity.
  - apply (gram_psd _ n n (fun p k => draw k p)); try reflexivity.
    intros p q Hp Hq. rewrite get_matmul by (simpl; assumption).
    unfold mm. simpl. apply sum_n_ext. intros k Hk.
    rewrite get_transpose by (simpl; assumption).
    rewrite !get_tabulate by assumption. reflexivity.
Qed.

(** ** More on [zy2_app] *)

Lemma map_result_total {A B : Type} (g : A -> result B) (l : list A) :
  (forall a, In a l -> exists b, g a = Ok b) ->
  exists bs, map_result g l = Ok bs /\ List.length bs = List.length l.
Proof.
  induction l as [| a l IH]; intros H; simpl.
  - exists []. split; reflexivity.
  - destruct (H a (or_introl eq_refl)) as [b ->].
    destruct IH as [bs [-> Hl]]; [intros c Hc; apply H; right; exact Hc |].
    exists (b :: bs). split; [reflexivity | simpl; rewrite Hl; reflexivity].
Qed.

(** [G[i, :].T.dot(A).dot(G[i, :])] returns when [A] is square of the
    width of [G]. *)
Lemma quad_form_row (G A : matrix) (i : nat) :
  shape0 A = shape1 G -> shape1 A = shape1 G ->
  exists c, quad_form (row_of G i) A = Ok c.
Proof.
  intros H0 H1. unfold quad_form, vecmat, vdot, row_of.
  rewrite length_map, length_seq, H0, Nat.eqb_refl. cbn [bind].
  rewrite !length_map, !length_seq, H1, Nat.eqb_refl.
  eexists. reflexivity.
Qed.

(** X18.  On arguments of the shapes that [mkl_qr] passes (G with one row per
    sample, Q with as many rows, y with as many rows, QTY of the shape of
    Q^T y) [zy2_app] raises nowhere and returns one value per row of [G];
    when [G] has no column all of them are -inf. *)
Theorem zy2_app_aligned_returns (div : R -> R -> R) (G Q y QTY : matrix) :
  shape0 Q = shape0 G ->
  shape0 y = shape0 G ->
  shape0 QTY = shape1 Q ->
  shape1 QTY = shape1 y ->
  exists z,
    zy2_app div G Q y QTY = Ok z /\
    List.length z = shape0 G /\
    (shape1 G = 0%nat -> z = repeat NegInf (shape0 G)).
Proof.
  intros HQ Hy HT0 HT1. unfold zy2_app.
  destruct (Nat.eqb_spec (shape1 G) 0) as [E | E].
  - eexists. split; [reflexivity |]. split; [apply repeat_length | reflexivity].
  - unfold mdot, shapes_aligned, msub, broadcast2, matmul, transpose.
    repeat (progress (cbn [bind shape0 shape1 tabulate];
                      rewrite ?Hy, ?HQ, ?HT1, ?HT0, ?Nat.eqb_refl,
                              ?broadcast_dim_same)).
    match goal with
    | |- context [map_result ?g (seq 0 (shape0 G))] =>
        destruct (map_result_total g (seq 0 (shape0 G))) as [C [-> LC]];
          [intros i _; apply quad_form_row; reflexivity |]
    end.
    cbn [bind].
    match goal with
    | |- context [map_result ?g (seq 0 (shape0 G))] =>
        destruct (map_result_total g (seq 0 (shape0 G))) as [B [-> LB]];
          [intros i _; apply quad_form_row; reflexivity |]
    end.
    cbn [bind].
    eexists. split; [reflexivity |]. split.
    + rewrite length_map, length_combine, length_map, LC, LB, length_seq.
      apply Nat.min_id.
    + intros Z. contradiction.
Qed.

Lemma zy2_app_aligned_returns_witness :
  shape0 eye2 = shape0 eye2 /\
  shape0 col_2_1 = shape0 eye2 /\
  shape0 col_2_1 = shape1 eye2 /\
  shape1 col_2_1 = shape1 col_2_1 /\
  exists z,
    zy2_app (fun _ _ => 0) eye2 eye2 col_2_1 col_2_1 = Ok z /\
    List.length z = 2%nat.
Proof.
  repeat (split; [reflexivity |]).
  destruct (zy2_app_aligned_returns (fun _ _ => 0) eye2 eye2 col_2_1 col_2_1
              eq_refl eq_refl eq_refl eq_refl) as [z [E [L _]]].
  exists z. split; [exact E | exact L].
Defined.

(** ** More on [mkl_qr] *)

Section MklQrRuns.

Variable cholesky_steps :
  matrix -> matrix -> list nat -> list nat ->
  option nat -> option nat -> option (list nat) ->
  (nat -> nat -> R) * list nat * list nat.
Variable qr_steps :
  matrix -> matrix -> matrix -> nat -> nat -> nat ->
  (nat -> nat -> R) * (nat -> nat -> R).
Variable qr_reorder :
  matrix -> matrix -> nat -> list nat ->
  (nat -> nat -> R) * (nat -> nat -> R).
Variable qr_orient :
  matrix -> matrix -> matrix -> (nat -> nat -> R) * (nat -> nat -> R).
Variable div : R -> R -> R.
Variable Ks : list matrix.
Variable y : matrix.
Variable rank : nat.
Variable f : nat -> R.
Variable delta : nat.

Local Abbreviation k := (num_kernels Ks).
Local Abbreviation w := (rank + k * delta)%nat.
Local Abbreviation inv := (qr_inv Ks rank delta).
Local Abbreviation setup := (qr_setup cholesky_steps Ks rank delta).
Local Abbreviation iter := (qr_iter cholesky_steps qr_steps div Ks y rank delta f).
Local Abbreviation loop := (qr_loop cholesky_steps qr_steps div Ks y rank delta f).
Local Abbreviation finalize := (qr_finalize qr_reorder qr_orient y).
Local Abbreviation from :=
  (qr_from cholesky_steps qr_steps qr_reorder qr_orient div Ks y rank delta f).
Local Abbreviation run :=
  (mkl_qr cholesky_steps qr_steps qr_reorder qr_orient div Ks y rank delta f).

(** An empty list of kernels makes [Ks[0]] raise before anything is
    allocated. *)
Theorem mkl_qr_no_kernels :
  delta <> 1%nat ->
  mkl_qr cholesky_steps qr_steps qr_reorder qr_orient div [] y rank delta f
  = ([], Raise (IndexError "list index out of range")).
Proof.
  intros Hd. unfold mkl_qr.
  destruct (Nat.eqb_spec delta 1) as [E | _]; [contradiction | reflexivity].
Qed.

Lemma setup_factors_trace (n : nat) (ks : list matrix) :
  exists Gs,
    setup_factors cholesky_steps rank delta n ks
    = (concat (repeat (Alloc [n; rank + delta]%nat
                       :: (if (0 <? delta)%nat then [CholeskySteps] else []))
                      (List.length ks)),
       Ok Gs).
Proof.
  induction ks as [| K ks [Gs IH]]; simpl.
  - eexists. reflexivity.
  - destruct (0 <? delta)%nat; simpl.
    + destruct (cholesky_steps K (np_zeros n (rank + delta)) [] (seq 0 n)
                               None (Some delta) None) as [[e a] i].
      simpl. rewrite IH. simpl. rewrite app_nil_r. eexists. reflexivity.
    + rewrite IH. simpl. rewrite app_nil_r. eexists. reflexivity.
Qed.

(** With at least one kernel the set-up succeeds, on [n = Ks[0].shape[0]]
    samples, and leaves the trace [setup_events]. *)
Lemma setup_succeeds :
  Ks <> [] ->
  exists st0,
    setup = (setup_events (shape0 (hd empty_matrix Ks)) k rank delta,
             Ok (shape0 (hd empty_matrix Ks), st0)).
Proof.
  unfold qr_setup, setup_events, num_kernels. case Ks as [| K0 ks].
  - intros H. contradiction H. reflexivity.
  - intros _. cbn [hd].
    destruct (setup_factors_trace (shape0 K0) (K0 :: ks)) as [Gs E].
    cbn [mbind emit]. rewrite E. cbn [mbind ret app].
    rewrite app_nil_r. eexists. reflexivity.
Qed.









End MklQrRuns.

(** X19.  With [rank = 0] and at least one kernel the loop is not entered: the
    call returns an empty basis (Q with no column, R of shape (0, 0), no
    entry in P) and does not warn. *)
Theorem mkl_qr_rank_zero
    (cholesky_steps :
       matrix -> matrix -> list nat -> list nat ->
       option nat -> option nat -> option (list nat) ->
       (nat -> nat -> R) * list nat * list nat)
    (qr_steps :
       matrix -> matrix -> matrix -> nat -> nat -> nat ->
       (nat -> nat -> R) * (nat -> nat -> R))
    (qr_reorder :
       matrix -> matrix -> nat -> list nat ->
       (nat -> nat -> R) * (nat -> nat -> R))
    (qr_orient :
       matrix -> matrix -> matrix -> (nat -> nat -> R) * (nat -> nat -> R))
    (div : R -> R -> R) (Ks : list matrix) (y : matrix) (f : nat -> R)
    (delta : nat) :
  Ks <> [] -> delta <> 1%nat ->
  exists Q R0,
    mkl_qr cholesky_steps qr_steps qr_reorder qr_orient div Ks y 0 delta f
    = (setup_events (shape0 (hd empty_matrix Ks)) (num_kernels Ks) 0 delta
       ++ [QrReorder; QrOrient],
       Ok (Q, R0, [])) /\
    shape0 Q = shape0 (hd empty_matrix Ks) /\ shape1 Q = 0%nat /\
    shape0 R0 = 0%nat /\ shape1 R0 = 0%nat.
Proof.
  intros HK Hd.
  destruct (setup_succeeds cholesky_steps Ks 0 delta HK) as [st0 E0].
  pose proof (setup_inv cholesky_steps Ks 0 delta _ _ _ E0) as Hinv0.
  unfold mkl_qr. destruct (Nat.eqb_spec delta 1) as [E | _]; [contradiction |].
  rewrite (mbind_ok _ _ _ _ E0). cbn [fst snd].
  unfold qr_from. cbn [seq qr_loop mbind ret].
  destruct (finalize_shapes qr_reorder qr_orient Ks y 0 delta _ 0 st0 Hinv0)
    as [Q [R0 [P [Ef [S1 [S2 [S3 [S4 S5]]]]]]]]; [lia |].
  destruct P as [| x P]; [| discriminate S5].
  rewrite Ef. cbn [fst snd app].
  exists Q, R0. auto.
Qed.

Lemma mkl_qr_rank_zero_witness :
  [zero_1x1] <> [] /\ (0 <> 1)%nat /\
  exists Q R0,
    mkl_qr chol_zero (fun _ _ _ _ _ _ => qr_zero) (fun _ _ _ _ => qr_zero)
           (fun _ _ _ => qr_zero) (fun _ _ => 0) [zero_1x1] zero_1x1 0 0
           (fun _ => 1)
    = (setup_events 1 1 0 0 ++ [QrReorder; QrOrient], Ok (Q, R0, [])) /\
    shape1 Q = 0%nat.
Proof.
  assert (HK : [zero_1x1] <> []) by discriminate.
  assert (Hd : (0 <> 1)%nat) by discriminate.
  split; [exact HK |]. split; [exact Hd |].
  destruct (mkl_qr_rank_zero chol_zero (fun _ _ _ _ _ _ => qr_zero)
              (fun _ _ _ _ => qr_zero) (fun _ _ _ => qr_zero) (fun _ _ => 0)
              [zero_1x1] zero_1x1 (fun _ => 1) 0 HK Hd)
    as [Q [R0 [E [_ [S _]]]]].
  exists Q, R0. split; [exact E | exact S].
Defined.

Lemma mkl_qr_no_kernels_witness :
  (0 <> 1)%nat /\
  mkl_qr chol_zero (fun _ _ _ _ _ _ => qr_zero) (fun _ _ _ _ => qr_zero)
         (fun _ _ _ => qr_zero) (fun _ _ => 0) [] zero_1x1 3 0 (fun _ => 1)
  = ([], Raise (IndexError "list index out of range")).
Proof.
  assert (Hd : (0 <> 1)%nat) by discriminate.
  split; [exact Hd |].
  apply mkl_qr_no_kernels. exact Hd.
Defined.




(** ** More on [mkl_lars] *)

(** *** The order of the groups *)

(** For a label of [P], [np.argmax(P == a)] is a position that holds it. *)
Lemma where_from_first (P : list nat) (a s : nat) :
  In a P ->
  exists i, hd O (where_from s (mask_eq P a)) = (s + i)%nat /\
            nth_error P i = Some a.
Proof.
  revert s. induction P as [| x P IH]; intros s H; [contradiction |].
  unfold mask_eq. cbn [map where_from]. fold (mask_eq P a).
  destruct (Nat.eqb_spec a x) as [E | N].
  - exists O. split; [cbn [hd]; lia | rewrite E; reflexivity].
  - destruct H as [H | H]; [symmetry in H; contradiction |].
    destruct (IH (S s) H) as [i [E1 E2]].
    exists (S i). split; [rewrite E1; lia | exact E2].
Qed.

Lemma first_occurrence_inj (P : list nat) (a b : nat) :
  In a P -> In b P ->
  argmax_bool (mask_eq P a) = argmax_bool (mask_eq P b) -> a = b.
Proof.
  intros Ha Hb E. unfold argmax_bool, np_where in E.
  destruct (where_from_first P a 0 Ha) as [i [Ei Hi]].
  destruct (where_from_first P b 0 Hb) as [j [Ej Hj]].
  rewrite Ei, Ej in E. cbn [Nat.add] in E. subst j.
  rewrite Hi in Hj. injection Hj as <-. reflexivity.
Qed.

Lemma insert_by_sorted (key : nat -> nat) (x : nat) (l : list nat) :
  StronglySorted (fun u v => (key u <= key v)%nat) l ->
  StronglySorted (fun u v => (key u <= key v)%nat) (insert_by key x l).
Proof.
  induction l as [| h l IH]; intros H; cbn [insert_by].
  - constructor; constructor.
  - inversion H as [| ? ? Hs Hf]; subst.
    destruct (Nat.ltb_spec (key x) (key h)) as [L | L].
    + constructor; [exact H |]. constructor; [lia |].
      apply Forall_forall. intros v Hv.
      rewrite Forall_forall in Hf. specialize (Hf v Hv). cbv beta in Hf. lia.
    + constructor; [apply IH; exact Hs |].
      apply Forall_forall. intros v Hv.
      apply (Permutation_in _ (insert_by_perm key x l)) in Hv.
      destruct Hv as [<- | Hv]; [exact L |].
      rewrite Forall_forall in Hf. exact (Hf v Hv).
Qed.

Lemma sorted_by_sorted (key : nat -> nat) (l : list nat) :
  StronglySorted (fun u v => (key u <= key v)%nat) (sorted_by key l).
Proof.
  unfold sorted_by.
  assert (G : forall l acc,
             StronglySorted (fun u v => (key u <= key v)%nat) acc ->
             StronglySorted (fun u v => (key u <= key v)%nat)
               (fold_left (fun acc x => insert_by key x acc) l acc)).
  { clear l. induction l as [| x l IH]; intros acc H; cbn [fold_left].
    - exact H.
    - apply IH. apply insert_by_sorted. exact H. }
  apply G. constructor.
Qed.

Lemma sorted_strict (key : nat -> nat) (l : list nat) :
  (forall a b, In a l -> In b l -> key a = key b -> a = b) ->
  NoDup l ->
  StronglySorted (fun u v => (key u <= key v)%nat) l ->
  StronglySorted (fun u v => (key u < key v)%nat) l.
Proof.
  induction l as [| h l IH]; intros Hinj Hnd H; [constructor |].
  inversion H as [| ? ? Hs Hf]; subst.
  inversion Hnd as [| ? ? Hnin Hnd']; subst.
  constructor.
  - apply IH; [| exact Hnd' | exact Hs].
    intros a b Ha Hb. apply Hinj; right; assumption.
  - apply Forall_forall. intros v Hv.
    rewrite Forall_forall in Hf. specialize (Hf v Hv). cbv beta in Hf.
    destruct (Nat.eq_dec (key h) (key v)) as [E | N]; [| lia].
    exfalso. apply Hnin.
    rewrite (Hinj h v (or_introl eq_refl) (or_intror Hv) E). exact Hv.
Qed.

Lemma sorted_strict_unique (key : nat -> nat) (l1 l2 : list nat) :
  StronglySorted (fun u v => (key u < key v)%nat) l1 ->
  StronglySorted (fun u v => (key u < key v)%nat) l2 ->
  (forall x, In x l1 <-> In x l2) ->
  l1 = l2.
Proof.
  revert l2. induction l1 as [| h1 t1 IH]; intros l2 H1 H2 Hin.
  - destruct l2 as [| h2 t2]; [reflexivity |].
    exfalso. apply (proj2 (Hin h2)). left. reflexivity.
  - destruct l2 as [| h2 t2].
    { exfalso. apply (proj1 (Hin h1)). left. reflexivity. }
    inversion H1 as [| ? ? Hs1 Hf1]; subst.
    inversion H2 as [| ? ? Hs2 Hf2]; subst.
    rewrite Forall_forall in Hf1, Hf2.
    assert (E : h1 = h2).
    { destruct (proj1 (Hin h1) (or_introl eq_refl)) as [E | A]; [symmetry; exact E |].
      destruct (proj2 (Hin h2) (or_introl eq_refl)) as [E | B]; [exact E |].
      specialize (Hf1 h2 B). specialize (Hf2 h1 A). cbv beta in Hf1, Hf2. lia. }
    subst h2. f_equal. apply IH; [exact Hs1 | exact Hs2 |].
    intros x. split; intros Hx.
    + destruct (proj1 (Hin x) (or_intror Hx)) as [E | A]; [| exact A].
      specialize (Hf1 x Hx). cbv beta in Hf1. subst x. lia.
    + destruct (proj2 (Hin x) (or_intror Hx)) as [E | A]; [| exact A].
      specialize (Hf2 x Hx). cbv beta in Hf2. subst x. lia.
Qed.

(** X22.  [korder] holds every label of [P] once, in the strict order of the
    first positions of the labels in [P]; sorting any enumeration [S] of
    the distinct labels gives the same list, so the order of the groups
    does not depend on the order in which [set(P)] is iterated. *)
Theorem korder_of_first_occurrence (P S : list nat) :
  NoDup S ->
  (forall x, In x S <-> In x P) ->
  NoDup (korder_of P) /\
  (forall x, In x (korder_of P) <-> In x P) /\
  StronglySorted
    (fun a b => (argmax_bool (mask_eq P a) < argmax_bool (mask_eq P b))%nat)
    (korder_of P) /\
  sorted_by (fun p => argmax_bool (mask_eq P p)) S = korder_of P.
Proof.
  intros HS HSP.
  set (key := fun p => argmax_bool (mask_eq P p)).
  assert (Hinj : forall l, (forall x, In x l -> In x P) ->
                   forall a b, In a l -> In b l -> key a = key b -> a = b).
  { intros l Hl a b Ha Hb. apply first_occurrence_inj; apply Hl; assumption. }
  assert (Hk : StronglySorted (fun u v => (key u < key v)%nat) (korder_of P)).
  { apply sorted_strict.
    - apply Hinj. intros x. apply korder_In.
    - apply korder_NoDup.
    - unfold korder_of. apply sorted_by_sorted. }
  split; [apply korder_NoDup |]. split; [apply korder_In |].
  split; [exact Hk |].
  pose proof (sorted_by_perm key S) as Hp.
  apply (sorted_strict_unique key); [| exact Hk |].
  - apply sorted_strict.
    + apply Hinj. intros x Hx. apply HSP.
      exact (Permutation_in _ Hp Hx).
    + exact (Permutation_NoDup (Permutation_sym Hp) HS).
    + apply sorted_by_sorted.
  - intros x. rewrite korder_In, <- HSP. split; intros Hx.
    + exact (Permutation_in _ Hp Hx).
    + exact (Permutation_in _ (Permutation_sym Hp) Hx).
Qed.

Lemma korder_of_first_occurrence_witness :
  NoDup [0; 1]%nat /\
  (forall x, In x [0; 1]%nat <-> In x [1; 0; 1]%nat) /\
  sorted_by (fun p => argmax_bool (mask_eq [1; 0; 1]%nat p)) [0; 1]%nat
  = korder_of [1; 0; 1]%nat.
Proof.
  assert (HS : NoDup [0; 1]%nat).
  { constructor; [intros [E | []]; discriminate E |].
    constructor; [intros [] | constructor]. }
  assert (HSP : forall x, In x [0; 1]%nat <-> In x [1; 0; 1]%nat).
  { intros x. simpl. split.
    - intros [E | [E | []]]; [right; left; exact E | left; exact E].
    - intros [E | [E | [E | []]]]; [right; left; exact E | left; exact E
                                   | right; left; exact E]. }
  split; [exact HS |]. split; [exact HSP |].
  exact (proj2 (proj2 (proj2
           (korder_of_first_occurrence [1; 0; 1]%nat [0; 1]%nat HS HSP)))).
Defined.

(** Without any column label [korder[0]] raises. *)
Theorem mkl_lars_no_labels (Q y : matrix) (f : nat -> R) :
  mkl_lars Q [] y f = Raise (IndexError "list index out of range").
Proof. reflexivity. Qed.

Lemma count_eq_pos (P : list nat) (k : nat) :
  In k P -> (1 <= count_eq P k)%nat.
Proof.
  induction P as [| x P IH]; intros H; [contradiction |].
  rewrite count_eq_cons. destruct H as [-> | H].
  - rewrite Nat.eqb_refl. lia.
  - specialize (IH H). lia.
Qed.

Lemma count_eq_three (P : list nat) (k1 k2 k3 : nat) :
  k1 <> k2 -> k1 <> k3 -> k2 <> k3 ->
  (count_eq P k1 + count_eq P k2 + count_eq P k3 <= List.length P)%nat.
Proof.
  intros H12 H13 H23.
  induction P as [| x P IH]; [unfold count_eq, mask_eq; simpl; lia |].
  rewrite !count_eq_cons. simpl List.length.
  destruct (Nat.eqb_spec k1 x); destruct (Nat.eqb_spec k2 x);
    destruct (Nat.eqb_spec k3 x); subst; try congruence; lia.
Qed.

(** When the check [c2 <= c1] has passed the step fraction is a finite
    number or nan. *)
Lemma step_fraction_cases (c1 c2 : R) :
  c2 <= c1 ->
  (exists a, step_fraction c1 c2 = Finite a) \/ step_fraction c1 c2 = NaN.
Proof.
  intros H. unfold step_fraction, np_divide.
  destruct (Req_EM_T c1 0) as [E | E].
  - destruct (Req_EM_T c2 0) as [E2 | E2]; [right; reflexivity |].
    destruct (Rlt_dec 0 c2) as [L | _]; [exfalso; lra | right; reflexivity].
  - unfold np_sqrt. destruct (Rlt_dec (c2 / c1) 0).
    + right. reflexivity.
    + left. eexists. reflexivity.
Qed.

(** X23.  With three or more distinct labels [mkl_lars] never returns: as soon
    as the first check [c2 <= c1] passes, [Q[:, :t].dot(path[i])] raises
    the ValueError of [dot], because [path[i]] has one entry per column of
    [Q] while [t] counts the columns of the first two groups only. *)
Theorem mkl_lars_three_labels_raise (Q : matrix) (P : list nat) (y : matrix)
    (f : nat -> R) (k1 k2 k3 : nat) (rest : list nat) (c1 c2 : R) :
  List.length P = shape1 Q ->
  List.length (ravel y) = shape0 Q ->
  korder_of P = k1 :: k2 :: k3 :: rest ->
  group_cost Q P f k1 (ravel y) = Ok c1 ->
  group_cost Q P f k2 (ravel y) = Ok c2 ->
  c2 <= c1 ->
  mkl_lars Q P y f = Raise not_aligned.
Proof.
  intros HP Hy Ek E1 E2 Hle.
  pose proof (korder_In P) as HIn. pose proof (korder_NoDup P) as HND.
  rewrite Ek in HND.
  assert (H12 : k1 <> k2).
  { inversion HND as [| ? ? Hn _]; subst. intros ->. apply Hn. left. reflexivity. }
  assert (H13 : k1 <> k3).
  { inversion HND as [| ? ? Hn _]; subst. intros ->. apply Hn. right. left. reflexivity. }
  assert (H23 : k2 <> k3).
  { inversion HND as [| ? ? _ HND2]; subst.
    inversion HND2 as [| ? ? Hn _]; subst. intros ->. apply Hn. left. reflexivity. }
  assert (H3 : In k3 P).
  { apply HIn. rewrite Ek. right. right. left. reflexivity. }
  pose proof (count_eq_pos P k3 H3) as Hpos.
  pose proof (count_eq_three P k1 k2 k3 H12 H13 H23) as Hsum.
  assert (Hbad : forall v, List.length v = shape1 Q ->
                   matvec (take_cols (count_eq P k1 + count_eq P k2) Q) v
                   = Raise not_aligned).
  { intros v Hv. unfold matvec, take_cols, slice_cols. simpl. rewrite Hv.
    destruct (Nat.eqb_spec (Nat.min (count_eq P k1 + count_eq P k2) (shape1 Q) - 0)
                           (shape1 Q)) as [E | _]; [lia | reflexivity]. }
  unfold mkl_lars. rewrite Ek.
  cbn [combine tl lars_loop]. unfold lars_iter at 1. cbn [r t path mu].
  rewrite E1, E2. cbn [bind].
  destruct (Rle_dec c2 c1) as [_ | N]; [| contradiction].
  rewrite (matvec_ok (transpose Q) (ravel y)) by (simpl; symmetry; exact Hy).
  cbn [bind].
  destruct (step_fraction_cases c1 c2 Hle) as [[a ->] | ->].
  - rewrite Hbad by (rewrite !length_map, length_seq; reflexivity).
    reflexivity.
  - rewrite Hbad by (rewrite !length_map, length_seq; reflexivity).
    reflexivity.
Qed.

Lemma mkl_lars_three_labels_raise_witness :
  List.length [0; 1; 2]%nat = shape1 eye3 /\
  List.length (ravel ones_3x1) = shape0 eye3 /\
  korder_of [0; 1; 2]%nat = [0; 1; 2]%nat /\
  group_cost eye3 [0; 1; 2]%nat (fun _ => 1) 0 (ravel ones_3x1) = Ok 1 /\
  group_cost eye3 [0; 1; 2]%nat (fun _ => 1) 1 (ravel ones_3x1) = Ok 1 /\
  1 <= 1 /\
  mkl_lars eye3 [0; 1; 2]%nat ones_3x1 (fun _ => 1) = Raise not_aligned.
Proof.
  assert (E0 : group_cost eye3 [0; 1; 2]%nat (fun _ => 1) 0 (ravel ones_3x1) = Ok 1)
    by (apply group_cost_ones; lia).
  assert (E1 : group_cost eye3 [0; 1; 2]%nat (fun _ => 1) 1 (ravel ones_3x1) = Ok 1)
    by (apply group_cost_ones; lia).
  assert (L : 1 <= 1) by lra.
  repeat (split; [first [reflexivity | assumption] |]).
  exact (mkl_lars_three_labels_raise eye3 [0; 1; 2]%nat ones_3x1 (fun _ => 1)
           0 1 2 [] 1 1 eq_refl eq_refl eq_refl E0 E1 L).
Defined.

(** *** The fitted mean *)

Lemma nth_projection (Q : matrix) (v : vector) (i : nat) :
  (i < shape0 Q)%nat ->
  nth i (projection Q v) 0
  = sum_n (shape1 Q) (fun b =>
      Q.[i, b] * sum_n (shape0 Q) (fun j => Q.[j, b] * nth j v 0)).
Proof.
  intros Hi. unfold projection.
  apply (nth_map_seq 0
           (fun i => sum_n (shape1 Q) (fun b =>
              Q.[i, b] * sum_n (shape0 Q) (fun j => Q.[j, b] * nth j v 0)))).
  exact Hi.
Qed.

Lemma projection_length (Q : matrix) (v : vector) :
  List.length (projection Q v) = shape0 Q.
Proof. unfold projection. rewrite length_map, length_seq. reflexivity. Qed.

(** [Q.dot(Q.T.dot(v))] computed by the two products. *)
Lemma matvec_twice (Q : matrix) (v : vector) :
  List.length v = shape0 Q ->
  (QTv <- matvec (transpose Q) v ;; matvec Q QTv) = Ok (projection Q v).
Proof.
  intros Hv.
  rewrite (matvec_ok (transpose Q) v) by (simpl; symmetry; exact Hv).
  cbn [bind].
  rewrite matvec_ok by (rewrite length_map, length_seq; reflexivity).
  apply f_equal. unfold projection. apply map_ext_in. intros i Hi.
  apply sum_n_ext. intros b Hb. apply f_equal.
  rewrite (nth_map_seq 0
             (fun i => sum_n (shape1 (transpose Q))
                (fun k => (transpose Q).[i, k] * nth k v 0))) by exact Hb.
  apply sum_n_ext. intros j Hj. rewrite get_transpose by assumption. reflexivity.
Qed.

(** The coefficients of a projection are those of the vector. *)
Lemma projection_coefficients (Q : matrix) (v : vector) (b : nat) :
  orthonormal_cols Q -> (b < shape1 Q)%nat ->
  sum_n (shape0 Q) (fun j => Q.[j, b] * nth j (projection Q v) 0)
  = sum_n (shape0 Q) (fun j => Q.[j, b] * nth j v 0).
Proof.
  intros Ho Hb.
  pose proof (residual_orthogonal (shape0 Q) (shape1 Q) (get 0 Q)
                (fun j => nth j v 0) b Ho Hb) as H.
  rewrite (sum_n_ext (shape0 Q) _
             (fun j => Q.[j, b] * nth j v 0
                       - Q.[j, b] * nth j (projection Q v) 0)) in H.
  - rewrite sum_n_minus in H. lra.
  - intros j Hj. rewrite nth_projection by exact Hj. ring.
Qed.

(** The final jump adds the projection of the residual to the mean. *)
Lemma lars_finish_value (Q : matrix) (st : lars_state) :
  orthonormal_cols Q -> List.length (r st) = shape0 Q ->
  exists st',
    lars_finish Q st = Ok st' /\
    mu st' = Some (mu_add (mu st) (projection Q (r st))).
Proof.
  intros Ho Hr.
  destruct (lars_finish_exact Q st Ho Hr) as [st' [d [z [E _]]]].
  exists st'. split; [exact E |].
  pose proof (matvec_twice Q (r st) Hr) as Hp.
  unfold lars_finish in E.
  destruct (matvec (transpose Q) (r st)) as [QTr | e]; cbn [bind] in *;
    [| discriminate E].
  rewrite Hp in E. cbn [bind] in E.
  destruct (matvec (transpose Q) (vsub (r st) (projection Q (r st))));
    cbn [bind] in E; [| discriminate E].
  destruct (Rlt_dec _ _); [| discriminate E].
  injection E as <-. reflexivity.
Qed.

(** X24.  Under the conditions of convergence (orthonormal columns, one or two
    labels, a positive penalty, a passing check with [c1 <> 0]) the fitted
    mean returned by [mkl_lars] is the projection Q Q^T y of the response
    on the columns of Q, whatever the penalty is. *)
Theorem mkl_lars_mean_is_projection (Q : matrix) (P : list nat) (y : matrix)
    (f : nat -> R) :
  orthonormal_cols Q ->
  List.length P = shape1 Q ->
  List.length (ravel y) = shape0 Q ->
  (forall p, 0 < f p) ->
  P <> [] ->
  (List.length (korder_of P) <= 2)%nat ->
  (forall k1 k2, korder_of P = [k1; k2] ->
     exists c1 c2,
       group_cost Q P f k1 (ravel y) = Ok c1 /\
       group_cost Q P f k2 (ravel y) = Ok c2 /\
       c2 <= c1 /\ c1 <> 0) ->
  exists st,
    mkl_lars Q P y f = Ok st /\ mu st = Some (projection Q (ravel y)).
Proof.
  intros Ho HP Hy Hf Hne Hlen Hchk.
  pose proof (korder_In P) as HIn. pose proof (korder_NoDup P) as HND.
  unfold mkl_lars.
  destruct (korder_of P) as [| k1 [| k2 [| k3 ko]]] eqn:Ek.
  - exfalso. destruct P as [| x P]; [apply Hne; reflexivity |].
    apply (proj2 (HIn x)). left. reflexivity.
  - cbn [combine tl lars_loop bind].
    match goal with
    | |- context [lars_finish Q ?s] =>
        destruct (lars_finish_value Q s Ho Hy) as [st' [E Hm]]
    end.
    exists st'. split; [exact E |]. rewrite Hm. cbn [mu r]. f_equal.
    unfold mu_add. rewrite <- (map_id (projection Q (ravel y))) at 2.
    apply map_ext. intros a. ring.
  - destruct (Hchk k1 k2 eq_refl) as [c1 [c2 [E1 [E2 [Hle Hnz]]]]].
    pose proof (group_cost_nonneg Q P f k1 _ c1 Hf E1) as Hc1.
    pose proof (group_cost_nonneg Q P f k2 _ c2 Hf E2) as Hc2.
    assert (Hcount : (count_eq P k1 + count_eq P k2 = shape1 Q)%nat).
    { rewrite <- HP. apply count_eq_two.
      - inversion HND as [| ? ? Hnin _]; subst. intros ->. apply Hnin. left. reflexivity.
      - intros x Hx. apply (proj2 (HIn x)) in Hx.
        destruct Hx as [<- | [<- | []]]; auto. }
    cbn [combine tl lars_loop]. unfold lars_iter. cbn [r t path mu].
    rewrite E1, E2. cbn [bind].
    destruct (Rle_dec c2 c1) as [_ | N]; [| contradiction].
    rewrite (matvec_ok (transpose Q) (ravel y)) by (simpl; symmetry; exact Hy).
    cbn [bind].
    destruct (step_fraction_finite c1 c2) as [a ->]; [lra | exact Hc2 |].
    rewrite Hcount.
    rewrite matvec_ok
      by (unfold take_cols, slice_cols; simpl;
          rewrite !length_map, length_seq; lia).
    cbn [bind].
    set (d1 := map _ (seq 0 (shape0 (take_cols (shape1 Q) Q)))).
    assert (Hd1 : forall i, (i < shape0 Q)%nat ->
                    nth i d1 0 = a * nth i (projection Q (ravel y)) 0).
    { intros i Hi. unfold d1.
      match goal with
      | |- nth i (map ?g _) 0 = _ => rewrite (nth_map_seq 0 g) by exact Hi
      end.
      rewrite nth_projection by exact Hi.
      unfold take_cols, slice_cols. cbn [shape1 tabulate].
      rewrite Nat.min_id, Nat.sub_0_r, <- sum_n_scal_l.
      apply sum_n_ext. intros b Hb.
      rewrite get_tabulate by lia.
      rewrite (nth_map_in (Rmult a) _ b 0 0)
        by (rewrite length_map, length_seq; exact Hb).
      rewrite (nth_map_seq 0
                 (fun i => sum_n (shape1 (transpose Q))
                    (fun k => (transpose Q).[i, k] * nth k (ravel y) 0)))
        by exact Hb.
      cbn [Nat.add].
      rewrite (sum_n_ext (shape1 (transpose Q)) _
                 (fun j => Q.[j, b] * nth j (ravel y) 0))
        by (intros j Hj; rewrite get_transpose by assumption; reflexivity).
      change (shape1 (transpose Q)) with (shape0 Q). ring. }
    assert (Ld1 : List.length d1 = shape0 Q)
      by (unfold d1; rewrite length_map, length_seq; reflexivity).
    match goal with
    | |- context [lars_finish Q ?s] =>
        destruct (lars_finish_value Q s Ho) as [st' [E Hm]]
    end.
    { cbn [r]. rewrite vsub_length. exact Hy. }
    exists st'. split; [exact E |]. rewrite Hm. cbn [mu r]. f_equal.
    unfold mu_add, vadd, projection at 2.
    rewrite length_map, Ld1.
    apply map_ext_in. intros i Hi. apply in_seq in Hi.
    rewrite (nth_map_in (Rplus 0) d1 i 0 0) by lia.
    rewrite Hd1 by lia.
    rewrite <- (nth_projection Q (ravel y) i) by lia.
    assert (Hr1 : nth i (projection Q (vsub (ravel y) d1)) 0
                  = (1 - a) * nth i (projection Q (ravel y)) 0).
    { rewrite !nth_projection by lia.
      rewrite <- sum_n_scal_l. apply sum_n_ext. intros b Hb.
      rewrite (sum_n_ext (shape0 Q)
                 (fun j => Q.[j, b] * nth j (vsub (ravel y) d1) 0)
                 (fun j => Q.[j, b] * nth j (ravel y) 0
                           - a * (Q.[j, b] * nth j (projection Q (ravel y)) 0))).
      - rewrite sum_n_minus, sum_n_scal_l.
        rewrite projection_coefficients by assumption. ring.
      - intros j Hj. rewrite nth_vsub by lia. rewrite Hd1 by exact Hj. ring. }
    rewrite Hr1. ring.
  - simpl in Hlen. lia.
Qed.

Lemma mkl_lars_mean_is_projection_witness :
  orthonormal_cols eye2 /\
  List.length [0; 1]%nat = shape1 eye2 /\
  List.length (ravel col_2_1) = shape0 eye2 /\
  (forall p : nat, 0 < (fun _ : nat => 1) p) /\
  exists st,
    mkl_lars eye2 [0; 1]%nat col_2_1 (fun _ => 1) = Ok st /\
    mu st = Some (projection eye2 (ravel col_2_1)).
Proof.
  assert (Hf : forall p : nat, 0 < (fun _ : nat => 1) p) by (intros p; lra).
  split; [exact eye2_orthonormal |]. split; [reflexivity |].
  split; [reflexivity |]. split; [exact Hf |].
  apply (mkl_lars_mean_is_projection eye2 [0; 1]%nat col_2_1 (fun _ => 1)
           eye2_orthonormal eq_refl eq_refl Hf).
  - discriminate.
  - change (2 <= 2)%nat. apply le_n.
  - intros k1 k2 H.
    change (korder_of [0; 1]%nat) with [0; 1]%nat in H.
    injection H as <- <-.
    destruct group_cost_col_2_1 as [E1 E2].
    exists 4, 1. repeat split; try assumption; lra.
Defined.
